(** * blahfeed: the cache-backed feed fetcher and the hybrid-feed aggregator

    A shallow embedding of [blahfeed.py]: [get_file_age], [parse_feed] and
    [generate_hybrid_feed], together with the parts of the Python runtime
    the three functions lean on ([re.sub] for the one pattern in use,
    [sorted], [str.join], [hashlib.sha256]).

    Conventions.
    - A Python [str] is represented by the Rocq [string] of its UTF-8
      bytes.  On that representation [str.encode()] is the identity on the
      underlying bytes, lexicographic comparison by code point coincides
      with lexicographic comparison by byte, and the character class
      [[^a-z0-9-]] rejects every byte of a multi-byte character, so a
      greedy run of rejected characters is a run of rejected bytes.
    - Clock readings and file ages are rationals ([Q]) in seconds.
    - Exceptions are values of [exn]; a computation that may raise returns
      [result]. *)

From Stdlib Require Import ZArith QArith List String Ascii Bool Lia.
From Stdlib Require Import Permutation Sorted OrderedTypeEx.
From stdpp Require Import gmap strings.
Import ListNotations.

Local Open Scope string_scope.
Local Open Scope list_scope.
Local Open Scope Z_scope.

(** ** Exceptions *)

Inductive exn : Type :=
| ClientResponseError (status : Z)   (* resp.raise_for_status() *)
| ClientConnectionError              (* sess.get: transport failure *)
| OSError                            (* open / read / write *)
| UnicodeDecodeError                 (* content.decode() *)
| TypeError                          (* '<' between None and a key *)
| KeyError (key : string)            (* entry["title"] and friends *)
| ValueError.                        (* feedgen, on a value it refuses *)

Inductive result (A : Type) : Type :=
| OK (a : A)
| Raise (e : exn).
Arguments OK {A} a.
Arguments Raise {A} e.

Definition bind {A B} (r : result A) (k : A -> result B) : result B :=
  match r with
  | OK a => k a
  | Raise e => Raise e
  end.

Notation "'try!' x ':=' r 'in' k" := (bind r (fun x => k))
  (at level 10, x name, r at level 200, k at level 200).

Definition is_ok {A} (r : result A) : bool :=
  match r with OK _ => true | Raise _ => false end.

(** ** hashlib.sha256 (FIPS 180-4) *)

Module SHA256.

Definition mask32 (x : Z) : Z := Z.land x 0xffffffff.
Definition add32 (x y : Z) : Z := mask32 (x + y).
Definition rotr (n x : Z) : Z :=
  Z.lor (Z.shiftr x n) (mask32 (Z.shiftl x (32 - n))).
Definition shr (n x : Z) : Z := Z.shiftr x n.
Definition not32 (x : Z) : Z := Z.lxor x 0xffffffff.

Definition Ch (x y z : Z) : Z := Z.lxor (Z.land x y) (Z.land (not32 x) z).
Definition Maj (x y z : Z) : Z :=
  Z.lxor (Z.lxor (Z.land x y) (Z.land x z)) (Z.land y z).
Definition Sigma0 (x : Z) : Z :=
  Z.lxor (Z.lxor (rotr 2 x) (rotr 13 x)) (rotr 22 x).
Definition Sigma1 (x : Z) : Z :=
  Z.lxor (Z.lxor (rotr 6 x) (rotr 11 x)) (rotr 25 x).
Definition sigma0 (x : Z) : Z :=
  Z.lxor (Z.lxor (rotr 7 x) (rotr 18 x)) (shr 3 x).
Definition sigma1 (x : Z) : Z :=
  Z.lxor (Z.lxor (rotr 17 x) (rotr 19 x)) (shr 10 x).

(** Sections 4.2.2 and 5.3.3 define the constants by what they are: the
    first 32 bits of the fractional parts of the cube roots of the first
    64 primes, and of the square roots of the first 8. *)
Definition primes : list Z :=
  [ 2; 3; 5; 7; 11; 13; 17; 19; 23; 29; 31; 37; 41; 43; 47; 53;
    59; 61; 67; 71; 73; 79; 83; 89; 97; 101; 103; 107; 109; 113; 127; 131;
    137; 139; 149; 151; 157; 163; 167; 173; 179; 181; 191; 193; 197; 199;
    211; 223; 227; 229; 233; 239; 241; 251; 257; 263; 269; 271; 277; 281;
    283; 293; 307; 311 ].

(** The largest [r] below [2 ^ bits] (added to [acc]) whose cube is at
    most [n], found bit by bit. *)
Fixpoint cube_root (bits : nat) (acc n : Z) : Z :=
  match bits with
  | O => acc
  | S b =>
      let r := acc + Z.shiftl 1 (Z.of_nat b) in
      if r * r * r <=? n then cube_root b r n else cube_root b acc n
  end.

Definition K : list Z :=
  map (fun p => mask32 (cube_root 36 0 (Z.shiftl p 96))) primes.

Definition H_init : list Z :=
  map (fun p => mask32 (Z.sqrt (Z.shiftl p 64))) (firstn 8 primes).

(** Big-endian encoding of [x] on [n] bytes. *)
Fixpoint be_bytes (n : nat) (x : Z) : list Z :=
  match n with
  | O => []
  | S n' => Z.land (Z.shiftr x (8 * Z.of_nat n')) 0xff :: be_bytes n' x
  end.

(** Section 5.1.1: the message, the byte 0x80, zero bytes up to 56 modulo
    64, and the bit length on eight bytes. *)
Definition pad (msg : list Z) : list Z :=
  let len := Z.of_nat (List.length msg) in
  let zeros := Z.to_nat ((55 - len) mod 64) in
  msg ++ 0x80 :: repeat 0 zeros ++ be_bytes 8 (8 * len).

Fixpoint be_words (fuel : nat) (bs : list Z) : list Z :=
  match fuel, bs with
  | S f, b0 :: b1 :: b2 :: b3 :: rest =>
      Z.lor (Z.shiftl b0 24)
        (Z.lor (Z.shiftl b1 16) (Z.lor (Z.shiftl b2 8) b3))
      :: be_words f rest
  | _, _ => []
  end.

Fixpoint blocks (fuel : nat) (ws : list Z) : list (list Z) :=
  match fuel with
  | O => []
  | S f =>
      match ws with
      | [] => []
      | _ => firstn 16 ws :: blocks f (skipn 16 ws)
      end
  end.

(** Message schedule, most recent word first: [nth 0 r 0] is W(t-1). *)
Fixpoint extend (n : nat) (r : list Z) : list Z :=
  match n with
  | O => r
  | S n' =>
      let w := add32 (add32 (sigma1 (nth 1 r 0)) (nth 6 r 0))
                     (add32 (sigma0 (nth 14 r 0)) (nth 15 r 0)) in
      extend n' (w :: r)
  end.

Definition schedule (block : list Z) : list Z :=
  rev (extend 48 (rev block)).

Record regs := Regs { ra : Z; rb : Z; rc : Z; rd : Z;
                      re : Z; rf : Z; rg : Z; rh : Z }.

Definition round (s : regs) (kw : Z * Z) : regs :=
  let '(k, w) := kw in
  let t1 := add32 (add32 (add32 (rh s) (Sigma1 (re s)))
                         (add32 (Ch (re s) (rf s) (rg s)) k)) w in
  let t2 := add32 (Sigma0 (ra s)) (Maj (ra s) (rb s) (rc s)) in
  Regs (add32 t1 t2) (ra s) (rb s) (rc s)
       (add32 (rd s) t1) (re s) (rf s) (rg s).

Definition regs_of (h : list Z) : regs :=
  Regs (nth 0 h 0) (nth 1 h 0) (nth 2 h 0) (nth 3 h 0)
       (nth 4 h 0) (nth 5 h 0) (nth 6 h 0) (nth 7 h 0).

Definition compress (h : list Z) (block : list Z) : list Z :=
  let s0 := regs_of h in
  let s := fold_left round (combine K (schedule block)) s0 in
  [ add32 (ra s0) (ra s); add32 (rb s0) (rb s);
    add32 (rc s0) (rc s); add32 (rd s0) (rd s);
    add32 (re s0) (re s); add32 (rf s0) (rf s);
    add32 (rg s0) (rg s); add32 (rh s0) (rh s) ].

Definition digest_words (msg : list Z) : list Z :=
  let p := pad msg in
  let ws := be_words (List.length p) p in
  fold_left compress (blocks (List.length ws) ws) H_init.

Definition hex_digit (d : Z) : ascii :=
  if d <? 10 then ascii_of_N (Z.to_N (48 + d))
  else ascii_of_N (Z.to_N (87 + d)).

Fixpoint hex_of (n : nat) (x : Z) : string :=
  match n with
  | O => EmptyString
  | S n' =>
      String (hex_digit (Z.land (Z.shiftr x (4 * Z.of_nat n')) 0xf))
             (hex_of n' x)
  end.

Definition byte_values (bs : list Byte.byte) : list Z :=
  map (fun b => Z.of_N (Byte.to_N b)) bs.

(** [hashlib.sha256(data).hexdigest()] *)
Definition hexdigest (data : list Byte.byte) : string :=
  String.concat "" (map (hex_of 8) (digest_words (byte_values data))).

End SHA256.

(** [str.encode()]: the UTF-8 bytes of the string. *)
Definition encode (s : string) : list Byte.byte := list_byte_of_string s.


(** ** The Python runtime: [re.sub], [str.join], [sorted] *)

(** The character class [[a-z0-9-]], as written in the pattern (no flag is
    passed to [re.sub], so the match is case-sensitive). *)
Definition in_class (c : ascii) : bool :=
  let n := N_of_ascii c in
  ((97 <=? n) && (n <=? 122) || (48 <=? n) && (n <=? 57) || (n =? 45))%N.

(** [re.sub(cls+, "-", s)] for a negated class: scanning left to right, the
    greedy [+] consumes a whole run of rejected characters and writes one
    ["-"] for it.  [in_run] tells whether the run's ["-"] is already out. *)
Fixpoint sub_runs (keep : ascii -> bool) (in_run : bool) (s : string)
  : string :=
  match s with
  | EmptyString => EmptyString
  | String c s' =>
      if keep c then String c (sub_runs keep false s')
      else if in_run then sub_runs keep true s'
      else String "-"%char (sub_runs keep true s')
  end.

(** [re.sub("[^a-z0-9-]+", "-", url)] *)
Definition re_sub (url : string) : string := sub_runs in_class false url.

(** ["\n".join(l)] *)
Definition newline : string := String (ascii_of_nat 10) EmptyString.
Definition join (sep : string) (l : list string) : string :=
  String.concat sep l.

(** [sorted(l, key=key, reverse=reverse)].  CPython's [list.sort] is stable
    and only ever asks [key a < key b]; with [reverse] it reverses the
    list, sorts ascending and reverses the outcome, which keeps equal keys
    in their input order.  The result of a stable sort is determined by
    the input, so the algorithm below (insertion after the last element
    that is not greater) stands for it.  A comparison may raise; a list of
    fewer than two elements is never compared. *)
Section Sorted.
Context {A K : Type}.
Variable key : A -> K.
Variable lt : K -> K -> result bool.

Fixpoint insort (x : A) (l : list A) : result (list A) :=
  match l with
  | [] => OK [x]
  | y :: l' =>
      try! b := lt (key x) (key y) in
      if b then OK (x :: y :: l')
      else try! r := insort x l' in OK (y :: r)
  end.

Fixpoint sort_from (acc : list A) (l : list A) : result (list A) :=
  match l with
  | [] => OK acc
  | x :: l' => try! acc' := insort x acc in sort_from acc' l'
  end.

Definition sorted (reverse : bool) (l : list A) : result (list A) :=
  if reverse then try! r := sort_from [] (rev l) in OK (rev r)
  else sort_from [] l.
End Sorted.

(** [str.__lt__]: lexicographic, never raises. *)
Definition str_lt (a b : string) : result bool := OK (String.ltb a b).

(** ** Parsed feeds *)

(** [time.struct_time], a nine-field tuple of integers. *)
Record struct_time := StructTime {
  tm_year : Z; tm_mon : Z; tm_mday : Z; tm_hour : Z; tm_min : Z;
  tm_sec : Z; tm_wday : Z; tm_yday : Z; tm_isdst : Z }.

#[global] Instance struct_time_eq_dec : EqDecision struct_time.
Proof. solve_decision. Defined.

Definition fields (t : struct_time) : list Z :=
  [ tm_year t; tm_mon t; tm_mday t; tm_hour t; tm_min t;
    tm_sec t; tm_wday t; tm_yday t; tm_isdst t ].

(** Tuple comparison: the first differing position decides, then length. *)
Fixpoint tuple_ltb (a b : list Z) : bool :=
  match a, b with
  | [], [] => false
  | [], _ :: _ => true
  | _ :: _, [] => false
  | x :: a', y :: b' =>
      if x <? y then true else if y <? x then false else tuple_ltb a' b'
  end.

Definition time_ltb (a b : struct_time) : bool :=
  tuple_ltb (fields a) (fields b).

(** An entry of a parsed feed: the keys the aggregator looks at; [None]
    is a key that is missing (or bound to [None]). *)
Record Entry := {
  title : option string;
  guid : option string;
  link : option string;
  published : option string;
  updated : option string;
  published_parsed : option struct_time;
  updated_parsed : option struct_time }.

Record FeedParserDict := { entries : list Entry }.

(** [item.get("updated_parsed") or item.get("published_parsed")]; a
    [struct_time] is a non-empty tuple, hence truthy. *)
Definition sort_key (item : Entry) : option struct_time :=
  match updated_parsed item with
  | Some t => Some t
  | None => published_parsed item
  end.

(** [<] on sort keys: defined between two [struct_time]s, [TypeError] as
    soon as one side is [None]. *)
Definition key_lt (a b : option struct_time) : result bool :=
  match a, b with
  | Some x, Some y => OK (time_ltb x y)
  | _, _ => Raise TypeError
  end.

(** ** The feed generator (feedgen), as the aggregator drives it *)

Record FeedEntry := {
  fe_title : string;
  fe_guid : string;
  fe_link : string;
  fe_published : option string;
  fe_updated : option string }.

(** [fg_items] is the generator's list of entries, in the order it keeps
    them: [fg.add_item()] puts the new entry in front (feedgen's default
    [order="prepend"]).  A [FeedEntry] records the arguments of the
    setter calls made on the entry. *)
Record FeedGenerator := {
  fg_title : option string;
  fg_id : option string;
  fg_items : list FeedEntry }.

(** ** The world: cache directory, clock, HTTP session *)

Record file := File {
  f_data : list Byte.byte;
  f_mtime : Q;
  f_readable : bool;
  f_writable : bool }.

Inductive node : Type :=
| Regular (f : file)
| Directory.

Record http_response := Response {
  status : Z;
  body : list Byte.byte }.

(** What the program does not own: the clock ([time.time()] at the n-th
    instant), the network (the answer to the n-th request of the
    session), the feed parser ([content.decode()] followed by
    [feedparser.parse]), feedgen ([feedgen_set name arg]: the error, if
    any, that the setter [name] of an entry raises for the argument
    [arg], such as a date without time zone; [atom_entry_error]: the
    error, if any, that serializing an entry raises, such as a required
    field left empty; [atom_str]: the bytes of
    [fg.atom_str(pretty=True)] when no entry raises), and three answers
    of the operating system and the event loop:
    - [fs_create name]: what [open(..., "wb")] does for a name that does
      not exist yet: [None] when the file cannot be created (a name over
      the length limit, a directory that cannot be written, a full
      disk), otherwise whether the new file can later be opened for
      reading and for writing (the mode the umask leaves);
    - [stamp]: the modification time the file system gives to a file
      written at the n-th instant;
    - [drains n]: whether the coroutine of request [n] still runs to its
      end once another coroutine of the gather has failed. *)
Record Env := {
  clock : nat -> Q;
  http_get : nat -> string -> result http_response;
  feedparser_parse : list Byte.byte -> result FeedParserDict;
  atom_str : FeedGenerator -> list Byte.byte;
  feedgen_set : string -> option string -> option exn;
  atom_entry_error : FeedEntry -> option exn;
  fs_create : string -> option (bool * bool);
  stamp : nat -> Q;
  drains : nat -> bool }.

(** [files] maps a name under [CACHE_ROOT] to what is there; [ticks] counts
    the instants at which time was observed so far (by [time.time()] or by
    the file system, stamping a write); [requests] logs the URLs
    requested, latest first. *)
Record World := {
  files : gmap string node;
  ticks : nat;
  requests : list string }.

Definition tick (w : World) : World :=
  {| files := files w; ticks := S (ticks w); requests := requests w |}.

(** [CACHE_ROOT / name]: the empty name is [CACHE_ROOT] itself, which the
    module creates as a directory when it is loaded. *)
Definition stat (w : World) (name : string) : option node :=
  if String.eqb name "" then Some Directory else files w !! name.

(** [get_file_age(p)] *)
Definition get_file_age (env : Env) (p : string) (w : World)
  : option Q * World :=
  match stat w p with
  | Some (Regular f) => (Some (clock env (ticks w) - f_mtime f)%Q, tick w)
  | _ => (None, w)
  end.

(** [with open(p, "rb") as f: content = f.read()] *)
Definition read_file (p : string) (w : World) : result (list Byte.byte) :=
  match stat w p with
  | Some (Regular f) => if f_readable f then OK (f_data f) else Raise OSError
  | _ => Raise OSError
  end.

(** [with open(p, "wb") as f: f.write(content)]: creates the file, if the
    system lets it, or replaces the content of a file that can be opened
    for writing; the file system stamps the modification time. *)
Definition write_file (env : Env) (p : string) (content : list Byte.byte)
  (w : World) : result unit * World :=
  let put r wr :=
    {| files := <[p := Regular (File content (stamp env (ticks w)) r wr)]>
                  (files w);
       ticks := S (ticks w);
       requests := requests w |} in
  match stat w p with
  | None =>
      match fs_create env p with
      | Some (r, wr) => (OK tt, put r wr)
      | None => (Raise OSError, w)
      end
  | Some (Regular f) =>
      if f_writable f then (OK tt, put (f_readable f) true)
      else (Raise OSError, w)
  | Some Directory => (Raise OSError, w)
  end.

(** [cache_age is None or cache_age > max_age] *)
Definition stale (cache_age : option Q) (max_age : Z) : bool :=
  match cache_age with
  | None => true
  | Some a => negb (Qle_bool a (inject_Z max_age))
  end.

(** ** parse_feed *)

(** Where a [parse_feed] coroutine stands once it has run up to its first
    suspension: waiting for the answer to its request, or holding what the
    read of the cache file gave. *)
Inductive pending : Type :=
| Requested (url : string) (cache_path : string) (n : nat)
| FromCache (content : result (list Byte.byte)).

(** Lines 29-31 and the synchronous part of either branch. *)
Definition fetch_start (env : Env) (url : string) (max_age : Z) (w : World)
  : pending * World :=
  let cache_path := re_sub url in
  let '(cache_age, w1) := get_file_age env cache_path w in
  if stale cache_age max_age then
    (Requested url cache_path (List.length (requests w1)),
     {| files := files w1; ticks := ticks w1;
        requests := url :: requests w1 |})
  else (FromCache (read_file cache_path w1), w1).

(** Lines 32-36, once the answer is in: [raise_for_status] raises for a
    status of 400 and above. *)
Definition fetch_finish (env : Env) (p : pending) (w : World)
  : result (list Byte.byte) * World :=
  match p with
  | FromCache content => (content, w)
  | Requested url cache_path n =>
      match http_get env n url with
      | Raise e => (Raise e, w)
      | OK resp =>
          if 400 <=? status resp then
            (Raise (ClientResponseError (status resp)), w)
          else
            let content := body resp in
            let '(r, w') := write_file env cache_path content w in
            (try! _u := r in OK content, w')
      end
  end.

(** The fetch phase of one [parse_feed] call run on its own. *)
Definition fetch (env : Env) (url : string) (max_age : Z) (w : World)
  : result (list Byte.byte) * World :=
  let '(p, w1) := fetch_start env url max_age w in
  fetch_finish env p w1.

Definition parse_feed (env : Env) (url : string) (max_age : Z) (w : World)
  : result FeedParserDict * World :=
  let '(c, w') := fetch env url max_age w in
  (try! content := c in feedparser_parse env content, w').

(** ** generate_hybrid_feed *)

(** [asyncio.gather]: every coroutine is started, in list order, and runs
    to its first suspension before any answer is delivered; the answers
    are then taken in list order.  The first exception ends the gather;
    the coroutines still under way are not cancelled by it, and each of
    them runs to its end (writing its cache file) or not, as [drains]
    tells. *)
Fixpoint start_all (env : Env) (urls : list string) (max_age : Z)
  (w : World) : list pending * World :=
  match urls with
  | [] => ([], w)
  | url :: rest =>
      let '(p, w1) := fetch_start env url max_age w in
      let '(ps, w2) := start_all env rest max_age w1 in
      (p :: ps, w2)
  end.

Fixpoint drain_all (env : Env) (ps : list pending) (w : World) : World :=
  match ps with
  | [] => w
  | p :: rest =>
      let w1 :=
        match p with
        | Requested _ _ n =>
            if drains env n then snd (fetch_finish env p w) else w
        | FromCache _ => w
        end in
      drain_all env rest w1
  end.

Fixpoint finish_all (env : Env) (ps : list pending) (w : World)
  : result (list FeedParserDict) * World :=
  match ps with
  | [] => (OK [], w)
  | p :: rest =>
      let '(c, w1) := fetch_finish env p w in
      match (try! content := c in feedparser_parse env content) with
      | Raise e => (Raise e, drain_all env rest w1)
      | OK feed =>
          let '(r, w2) := finish_all env rest w1 in
          (try! feeds := r in OK (feed :: feeds), w2)
      end
  end.

Definition gather (env : Env) (urls : list string) (max_age : Z)
  (w : World) : result (list FeedParserDict) * World :=
  let '(ps, w1) := start_all env urls max_age w in
  finish_all env ps w1.

(** Line 48. *)
Definition digest (feed_urls : list string) : result string :=
  try! urls := sorted id str_lt false feed_urls in
  OK (SHA256.hexdigest (encode (join newline urls))).

(** Lines 54-58. *)
Definition sorted_entries (feeds : list FeedParserDict)
  : result (list Entry) :=
  sorted sort_key key_lt true (concat (map entries feeds)).

(** [entry[k]] *)
Definition getitem (k : string) (v : option string) : result string :=
  match v with
  | Some s => OK s
  | None => Raise (KeyError k)
  end.

(** A call of the setter [name] of an entry with argument [arg]. *)
Definition setter (env : Env) (name : string) (arg : option string)
  : result unit :=
  match feedgen_set env name arg with
  | Some e => Raise e
  | None => OK tt
  end.

(** Lines 63-68, one turn of the loop: the index expression of each call
    is evaluated, then the setter is called. *)
Definition add_item (env : Env) (fg : FeedGenerator) (entry : Entry)
  : result FeedGenerator :=
  try! t := getitem "title" (title entry) in
  try! _u := setter env "title" (Some t) in
  try! g := getitem "guid" (guid entry) in
  try! _u := setter env "guid" (Some g) in
  try! l := getitem "link" (link entry) in
  try! _u := setter env "link" (Some l) in
  try! _u := setter env "published" (published entry) in
  try! _u := setter env "updated" (updated entry) in
  OK {| fg_title := fg_title fg;
        fg_id := fg_id fg;
        fg_items :=
          {| fe_title := t; fe_guid := g; fe_link := l;
             fe_published := published entry;
             fe_updated := updated entry |} :: fg_items fg |}.

Fixpoint add_items (env : Env) (fg : FeedGenerator) (es : list Entry)
  : result FeedGenerator :=
  match es with
  | [] => OK fg
  | entry :: rest =>
      try! fg' := add_item env fg entry in add_items env fg' rest
  end.

(** [fg.atom_str] serializes the entries one by one and raises for the
    first it cannot serialize. *)
Fixpoint atom_entries (env : Env) (items : list FeedEntry) : result unit :=
  match items with
  | [] => OK tt
  | it :: rest =>
      match atom_entry_error env it with
      | Some e => Raise e
      | None => atom_entries env rest
      end
  end.

Definition generate_hybrid_feed (env : Env) (feed_urls : list string)
  (max_age : Z) (w : World) : result (list Byte.byte) * World :=
  match digest feed_urls with
  | Raise e => (Raise e, w)
  | OK d =>
      let '(r, w') := gather env feed_urls max_age w in
      (try! feeds := r in
       try! es := sorted_entries feeds in
       let fg := {| fg_title := Some "Hybrid Feed";
                    fg_id := Some ("feed-" ++ d)%string;
                    fg_items := [] |} in
       try! fg' := add_items env fg es in
       try! _u := atom_entries env (fg_items fg') in
       OK (atom_str env fg'),
       w')
  end.

(** The feed id the generator is given for a list of URLs. *)
Definition feed_id (feed_urls : list string) : result string :=
  try! d := digest feed_urls in OK ("feed-" ++ d)%string.

(** ** Reference definitions used by the statements *)

(** The same sort without the error monad, for a comparison that cannot
    raise. *)
Fixpoint insert_by {A K} (key : A -> K) (ltb : K -> K -> bool) (x : A)
  (l : list A) : list A :=
  match l with
  | [] => [x]
  | y :: l' =>
      if ltb (key x) (key y) then x :: y :: l'
      else y :: insert_by key ltb x l'
  end.

Fixpoint sort_by_from {A K} (key : A -> K) (ltb : K -> K -> bool)
  (acc l : list A) : list A :=
  match l with
  | [] => acc
  | x :: l' => sort_by_from key ltb (insert_by key ltb x acc) l'
  end.

Definition sort_by {A K} (key : A -> K) (ltb : K -> K -> bool)
  (reverse : bool) (l : list A) : list A :=
  if reverse then rev (sort_by_from key ltb [] (rev l))
  else sort_by_from key ltb [] l.

(** [a] may stand before [b] in an ascending list: [b] is not less. *)
Definition not_after {A K} (key : A -> K) (ltb : K -> K -> bool)
  (a b : A) : Prop :=
  ltb (key b) (key a) = false.

(** A total strict order on sort keys that agrees with [key_lt] wherever
    [key_lt] answers: [None] is put below every time. *)
Definition okey_ltb (a b : option struct_time) : bool :=
  match a, b with
  | Some x, Some y => time_ltb x y
  | None, Some _ => true
  | _, None => false
  end.

(** The key of [b] is not later than the key of [a]: [a] may stand before
    [b] in the merged feed. *)
Definition newer_first (a b : Entry) : Prop :=
  match sort_key a, sort_key b with
  | Some x, Some y => time_ltb x y = false
  | _, _ => False
  end.

(** The class of the pattern read without regard to case: letters of
    either case, digits and the hyphen. *)
Definition in_class_ci (c : ascii) : bool :=
  let n := N_of_ascii c in
  (in_class c || (65 <=? n) && (n <=? 90))%N.

(** Key normalization as the specification words it. *)
Definition normalize_spec (url : string) : string :=
  sub_runs in_class_ci false url.

Fixpoint all_rejected (keep : ascii -> bool) (s : string) : bool :=
  match s with
  | EmptyString => true
  | String c s' => negb (keep c) && all_rejected keep s'
  end.

(** The end of a run: nothing left, or a kept character. *)
Definition run_end (keep : ascii -> bool) (s : string) : bool :=
  match s with
  | EmptyString => true
  | String c _ => keep c
  end.

(** [collapsed keep s r]: [r] is [s] with every kept character in place
    and every maximal run of rejected characters replaced by one ["-"]. *)
Inductive collapsed (keep : ascii -> bool) : string -> string -> Prop :=
| collapsed_nil : collapsed keep EmptyString EmptyString
| collapsed_keep c s r :
    keep c = true -> collapsed keep s r ->
    collapsed keep (String c s) (String c r)
| collapsed_run run s r :
    run <> EmptyString -> all_rejected keep run = true ->
    run_end keep s = true -> collapsed keep s r ->
    collapsed keep (run ++ s)%string (String "-"%char r).

(** The cache entry of a URL: the regular file at its cache path. *)
Definition cache_entry (url : string) (w : World) : option file :=
  match stat w (re_sub url) with
  | Some (Regular f) => Some f
  | _ => None
  end.

(** The age [get_file_age] finds for the entry in world [w]. *)
Definition age_of (env : Env) (w : World) (f : file) : Q :=
  (clock env (ticks w) - f_mtime f)%Q.

(** The number of requests a step added to the log. *)
Definition network_calls (w w' : World) : nat :=
  (List.length (requests w') - List.length (requests w))%nat.

(** The entry is missing or older than [max_age]. *)
Definition expired (env : Env) (url : string) (max_age : Z) (w : World)
  : Prop :=
  match cache_entry url w with
  | None => True
  | Some f => (inject_Z max_age < age_of env w f)%Q
  end.

(** A success status as the specification words it: 2xx. *)
Definition success_2xx (resp : http_response) : Prop :=
  200 <= status resp < 300.

(** The coroutine cannot hand a feed to the gather: its request is refused
    ([raise_for_status]: 400 and above) or fails in transport, or the
    payload it holds, fetched or read from the cache, is rejected by the
    parser, or the read of the cache file has raised. *)
Definition doomed (env : Env) (p : pending) : Prop :=
  match p with
  | Requested url _ n =>
      match http_get env n url with
      | OK resp =>
          400 <= status resp
          \/ exists e, feedparser_parse env (body resp) = Raise e
      | Raise _ => True
      end
  | FromCache (OK content) =>
      exists e, feedparser_parse env content = Raise e
  | FromCache (Raise _) => True
  end.

(** ** Sample environments and worlds *)

Definition sample_url : string := "http://a/feed".
Definition sample_body : list Byte.byte := encode "<feed/>".
Definition stored_body : list Byte.byte := encode "<feed>old</feed>".

Definition untimed : Entry :=
  {| title := Some "first"; guid := Some "g1"; link := Some "http://a/1";
     published := None; updated := None;
     published_parsed := None; updated_parsed := None |}.

Definition timed : Entry :=
  {| title := Some "second"; guid := Some "g2"; link := Some "http://a/2";
     published := Some "2024-01-03T00:00:00Z"; updated := None;
     published_parsed := Some (StructTime 2024 1 3 0 0 0 2 3 0);
     updated_parsed := None |}.

Definition entry_a1 : Entry :=
  {| title := Some "a"; guid := Some "a1"; link := Some "http://a/1";
     published := None; updated := Some "2024-01-02T00:00:00Z";
     published_parsed := None;
     updated_parsed := Some (StructTime 2024 1 2 0 0 0 1 2 0) |}.

Definition entry_b1 : Entry :=
  {| title := Some "b"; guid := Some "b1"; link := Some "http://b/1";
     published := Some "2024-01-03T00:00:00Z"; updated := None;
     published_parsed := Some (StructTime 2024 1 3 0 0 0 2 3 0);
     updated_parsed := None |}.

Definition guids (fg : FeedGenerator) : list Byte.byte :=
  encode (join "," (map fe_guid (fg_items fg))).

(** A file system that creates any file whose name has at most 255
    bytes, readable and writable. *)
Definition create_short (name : string) : option (bool * bool) :=
  if (String.length name <=? 255)%nat then Some (true, true) else None.

(** The clock stands at 100 s and so do the stamps of the file system,
    every request is answered with status [st] and [sample_body], the
    parser finds [found] in whatever it is given, and feedgen takes every
    value. *)
Definition env_answering (st : Z) (found : list Entry) : Env :=
  {| clock := fun _ => 100%Q;
     http_get := fun _ _ => OK (Response st sample_body);
     feedparser_parse := fun _ => OK {| entries := found |};
     atom_str := guids;
     feedgen_set := fun _ _ => None;
     atom_entry_error := fun _ => None;
     fs_create := create_short;
     stamp := fun _ => 100%Q;
     drains := fun _ => true |}.

(** Every request is answered 200. *)
Definition env_of (found : list Entry) : Env := env_answering 200 found.

(** Every request is answered 404, with an empty body. *)
Definition env_404 : Env :=
  {| clock := fun _ => 100%Q;
     http_get := fun _ _ => OK (Response 404 []);
     feedparser_parse := fun _ => OK {| entries := [] |};
     atom_str := guids;
     feedgen_set := fun _ _ => None;
     atom_entry_error := fun _ => None;
     fs_create := create_short;
     stamp := fun _ => 100%Q;
     drains := fun _ => true |}.

Definition empty_world : World :=
  {| files := ∅; ticks := 0; requests := [] |}.

(** A cache holding one file, under the key of [sample_url]. *)
Definition world_with (f : file) : World :=
  {| files := {[ re_sub sample_url := Regular f ]};
     ticks := 0; requests := [] |}.

(** ** Further reference definitions *)

(** Every character of [s] passes [p]. *)
Fixpoint all_chars (p : ascii -> bool) (s : string) : bool :=
  match s with
  | EmptyString => true
  | String c s' => p c && all_chars p s'
  end.

(** [open(p, "wb")] will succeed: nothing is there and the system lets
    the file be created, or a regular file that can be opened for
    writing. *)
Definition writable_at (env : Env) (p : string) (w : World) : Prop :=
  match stat w p with
  | None => fs_create env p <> None
  | Some (Regular f) => f_writable f = true
  | Some Directory => False
  end.

(** The path can be written and read back afterwards. *)
Definition usable (env : Env) (p : string) (w : World) : Prop :=
  match stat w p with
  | None => exists wr, fs_create env p = Some (true, wr)
  | Some (Regular f) => f_readable f = true /\ f_writable f = true
  | Some Directory => False
  end.

(** Every request is answered 200 with [sample_body], which the parser
    cannot decode. *)
Definition env_undecodable : Env :=
  {| clock := fun _ => 100%Q;
     http_get := fun _ _ => OK (Response 200 sample_body);
     feedparser_parse := fun _ => Raise UnicodeDecodeError;
     atom_str := guids;
     feedgen_set := fun _ _ => None;
     atom_entry_error := fun _ => None;
     fs_create := create_short;
     stamp := fun _ => 100%Q;
     drains := fun _ => true |}.

(** The cache path a pending coroutine will write, if any. *)
Definition pending_path (p : pending) : option string :=
  match p with
  | Requested _ path _ => Some path
  | FromCache _ => None
  end.

(** A regular file stands at cache path [q]. *)
Definition has_entry (q : string) (w : World) : Prop :=
  exists f, stat w q = Some (Regular f).

(** Once [p] has finished without raising, [q] will hold a file: [p]
    writes it, or [p] has read it. *)
Definition covers (p : pending) (q : string) (w : World) : Prop :=
  match p with
  | Requested _ path _ => path = q
  | FromCache _ => has_entry q w
  end.

(** The entry has the three keys the loop indexes with [entry[...]]. *)
Definition complete (e : Entry) : Prop :=
  title e <> None /\ guid e <> None /\ link e <> None.

(** [it] was built from entry [e]: it was given the title, the guid and
    the link of [e]. *)
Definition handed (e : Entry) (it : FeedEntry) : Prop :=
  title e = Some (fe_title it) /\ guid e = Some (fe_guid it)
  /\ link e = Some (fe_link it).





(** * Properties *)

Example sha256_constants :
  nth 0 SHA256.K 0 = 0x428a2f98 /\ nth 63 SHA256.K 0 = 0xc67178f2
  /\ nth 0 SHA256.H_init 0 = 0x6a09e667
  /\ nth 7 SHA256.H_init 0 = 0x5be0cd19.
Proof. vm_compute. repeat split; reflexivity. Qed.

Example sha256_empty :
  SHA256.hexdigest (encode "")
  = "e3b0c44298fc1c149afbf4c8996fb92427ae41e4649b934ca495991b7852b855".
Proof. vm_compute. reflexivity. Qed.

Example sha256_abc :
  SHA256.hexdigest (encode "abc")
  = "ba7816bf8f01cfea414140de5dae2223b00361a396177a9cb410ff61f20015ad".
Proof. vm_compute. reflexivity. Qed.

Example sha256_two_blocks :
  SHA256.hexdigest
    (encode "abcdbcdecdefdefgefghfghighijhijkijkljklmklmnlmnomnopnopq")
  = "248d6a61d20638b8e5c026930c3e6039a33ce45964ff2167f6ecedd419db06c1".
Proof. vm_compute. reflexivity. Qed.

(** ** The stable sort *)

Section SortTheory.
Context {A K : Type} `{EqDecision K}.
Variable key : A -> K.
Variable ltb : K -> K -> bool.
Hypothesis ltb_irrefl : forall a, ltb a a = false.
Hypothesis ltb_trans :
  forall a b c, ltb a b = true -> ltb b c = true -> ltb a c = true.
Hypothesis ltb_total :
  forall a b, ltb a b = false -> ltb b a = false -> a = b.

Local Abbreviation asc := (not_after key ltb).
Local Abbreviation ins := (insert_by key ltb).
Local Abbreviation srt := (sort_by_from key ltb).

Lemma asc_trans a b c : asc a b -> asc b c -> asc a c.
Proof.
  unfold not_after. intros Hab Hbc.
  destruct (ltb (key c) (key a)) eqn:Hca; [|reflexivity].
  destruct (ltb (key a) (key b)) eqn:Hab'.
  - rewrite (ltb_trans _ _ _ Hca Hab') in Hbc. discriminate.
  - rewrite <- (ltb_total _ _ Hab' Hab) in Hbc. congruence.
Qed.

Lemma ltb_asym a b : ltb a b = true -> ltb b a = false.
Proof.
  intros Hab. destruct (ltb b a) eqn:Hba; [|reflexivity].
  pose proof (ltb_trans _ _ _ Hab Hba) as H'.
  rewrite ltb_irrefl in H'. discriminate.
Qed.

Lemma insert_by_perm x l : Permutation (ins x l) (x :: l).
Proof.
  induction l as [|y l IH]; simpl; [reflexivity|].
  destruct (ltb (key x) (key y)); [reflexivity|].
  rewrite IH. apply perm_swap.
Qed.

Lemma insert_by_sorted x l :
  StronglySorted asc l -> StronglySorted asc (ins x l).
Proof.
  induction l as [|y l IH]; simpl; intros Hs.
  - repeat constructor.
  - inversion Hs as [|? ? Hs' Hall]; subst.
    destruct (ltb (key x) (key y)) eqn:Hxy.
    + constructor; [assumption|].
      assert (Hx : asc x y) by (apply ltb_asym; exact Hxy).
      constructor; [exact Hx|].
      eapply List.Forall_impl; [|exact Hall].
      intros z Hz. eapply asc_trans; eassumption.
    + constructor; [auto|].
      eapply Permutation_Forall.
      * symmetry. apply insert_by_perm.
      * constructor; assumption.
Qed.

Lemma sort_by_from_perm l acc : Permutation (srt acc l) (acc ++ l).
Proof.
  revert acc. induction l as [|x l IH]; intros acc; simpl.
  - rewrite app_nil_r. reflexivity.
  - rewrite IH, insert_by_perm. apply Permutation_middle.
Qed.

Lemma sort_by_from_sorted l acc :
  StronglySorted asc acc -> StronglySorted asc (srt acc l).
Proof.
  revert acc. induction l as [|x l IH]; intros acc Hs; simpl; auto.
  apply IH, insert_by_sorted, Hs.
Qed.

(** Insertion puts [x] behind every element of its own key. *)
Lemma insert_by_filter k x l :
  StronglySorted asc l ->
  filter (fun e => key e = k) (ins x l)
  = filter (fun e => key e = k) l ++ filter (fun e => key e = k) [x].
Proof.
  induction l as [|y l IH]; simpl; intros Hs; [reflexivity|].
  inversion Hs as [|? ? Hs' Hall]; subst.
  destruct (ltb (key x) (key y)) eqn:Hxy.
  - destruct (decide (key x = k)) as [Hk|Hk].
    + assert (Hnone : filter (fun e => key e = k) (y :: l) = []).
      { assert (Hy : Forall (fun z => key z <> k) (y :: l)).
        { constructor.
          - intros Hy. rewrite Hy, <- Hk, ltb_irrefl in Hxy.
            discriminate.
          - eapply List.Forall_impl; [|exact Hall].
            intros z Hz Hzk. unfold not_after in Hz.
            rewrite Hzk, <- Hk, Hxy in Hz. discriminate. }
        clear -Hy. induction Hy as [|z l' Hz _ IH']; [reflexivity|].
        rewrite filter_cons_False by exact Hz. exact IH'. }
      rewrite (filter_cons_True _ x) by exact Hk.
      rewrite Hnone. simpl. rewrite filter_cons_True by exact Hk.
      reflexivity.
    + rewrite (filter_cons_False _ x) by exact Hk.
      rewrite (filter_cons_False _ x [] ) by exact Hk.
      rewrite filter_nil, app_nil_r. reflexivity.
  - rewrite !(filter_cons _ y), IH by assumption.
    destruct (decide (key y = k)); reflexivity.
Qed.

Lemma sort_by_from_filter k l acc :
  StronglySorted asc acc ->
  filter (fun e => key e = k) (srt acc l)
  = filter (fun e => key e = k) acc ++ filter (fun e => key e = k) l.
Proof.
  revert acc. induction l as [|x l IH]; intros acc Hs; simpl.
  - rewrite filter_nil, app_nil_r. reflexivity.
  - rewrite IH by (apply insert_by_sorted, Hs).
    rewrite insert_by_filter by exact Hs.
    rewrite <- app_assoc, <- filter_app. reflexivity.
Qed.

Lemma filter_rev (P : A -> Prop) `{forall x, Decision (P x)} l :
  filter P (rev l) = rev (filter P l).
Proof.
  induction l as [|x l IH]; simpl; [reflexivity|].
  rewrite filter_app, IH, filter_cons.
  destruct (decide (P x)); simpl.
  - rewrite filter_cons_True by assumption. reflexivity.
  - rewrite filter_cons_False by assumption.
    rewrite filter_nil, app_nil_r. reflexivity.
Qed.

Lemma sorted_snoc (R : A -> A -> Prop) m x :
  StronglySorted R m -> Forall (fun y => R y x) m ->
  StronglySorted R (m ++ [x]).
Proof.
  induction m as [|z m IHm]; simpl; intros Hsm Hm.
  - repeat constructor.
  - inversion Hm; inversion Hsm; subst.
    constructor; [auto|].
    apply Forall_app; split; [assumption|].
    repeat constructor. assumption.
Qed.

Lemma sorted_rev (R : A -> A -> Prop) l :
  StronglySorted R l -> StronglySorted (fun a b => R b a) (rev l).
Proof.
  induction 1 as [|x l Hs IH Hall]; simpl; [constructor|].
  apply sorted_snoc; [exact IH|].
  apply List.Forall_rev. exact Hall.
Qed.

(** Two ascending lists with the same elements are the same list, when
    the key tells the elements apart. *)
Lemma sorted_perm_eq l1 l2 :
  (forall a b, key a = key b -> a = b) ->
  StronglySorted asc l1 -> StronglySorted asc l2 ->
  Permutation l1 l2 -> l1 = l2.
Proof.
  intros Hinj. revert l2.
  induction l1 as [|a l1 IH]; intros l2 Hs1 Hs2 Hp.
  - apply Permutation_nil in Hp. congruence.
  - destruct l2 as [|b l2].
    { symmetry in Hp. apply Permutation_nil in Hp. discriminate. }
    inversion Hs1 as [|? ? Hs1' Hall1]; subst.
    inversion Hs2 as [|? ? Hs2' Hall2]; subst.
    assert (Hab : a = b).
    { assert (Ha : In a (b :: l2))
        by (eapply Permutation_in; [exact Hp|left; reflexivity]).
      assert (Hb : In b (a :: l1))
        by (eapply Permutation_in;
            [symmetry; exact Hp|left; reflexivity]).
      destruct Ha as [Ha|Ha]; [congruence|].
      destruct Hb as [Hb|Hb]; [congruence|].
      rewrite List.Forall_forall in Hall1, Hall2.
      apply Hinj, ltb_total; [apply Hall2, Ha|apply Hall1, Hb]. }
    subst b. f_equal.
    apply IH; [assumption..|].
    eapply Permutation_cons_inv. exact Hp.
Qed.

Lemma sort_by_perm reverse l : Permutation (sort_by key ltb reverse l) l.
Proof.
  unfold sort_by. destruct reverse.
  - rewrite <- Permutation_rev, sort_by_from_perm. simpl.
    symmetry. apply Permutation_rev.
  - apply sort_by_from_perm.
Qed.

Lemma sort_by_asc l : StronglySorted asc (sort_by key ltb false l).
Proof. apply sort_by_from_sorted. constructor. Qed.

Lemma sort_by_desc l :
  StronglySorted (fun a b => asc b a) (sort_by key ltb true l).
Proof. apply sorted_rev, sort_by_from_sorted. constructor. Qed.

(** Stability: the elements of any one key come out in input order. *)
Lemma sort_by_stable reverse k l :
  filter (fun e => key e = k) (sort_by key ltb reverse l)
  = filter (fun e => key e = k) l.
Proof.
  unfold sort_by. destruct reverse.
  - rewrite filter_rev, sort_by_from_filter by constructor.
    rewrite filter_nil. simpl. rewrite filter_rev.
    apply rev_involutive.
  - rewrite sort_by_from_filter by constructor.
    rewrite filter_nil. reflexivity.
Qed.

Lemma sort_by_perm_eq l1 l2 :
  (forall a b, key a = key b -> a = b) ->
  Permutation l1 l2 -> sort_by key ltb false l1 = sort_by key ltb false l2.
Proof.
  intros Hinj Hp. apply sorted_perm_eq; auto using sort_by_asc.
  rewrite !sort_by_perm. exact Hp.
Qed.

End SortTheory.

(** The sort in the error monad is the pure one as long as the comparison
    answers on the elements at hand. *)
Section SortAgreement.
Context {A K : Type}.
Variable key : A -> K.
Variable lt : K -> K -> result bool.
Variable ltb : K -> K -> bool.
Variable good : A -> Prop.
Hypothesis lt_ok :
  forall a b, good a -> good b ->
              lt (key a) (key b) = OK (ltb (key a) (key b)).

Lemma insert_by_good x l :
  good x -> Forall good l -> Forall good (insert_by key ltb x l).
Proof.
  intros Hx Hl. induction Hl as [|y l Hy Hl IH]; simpl.
  - repeat constructor. exact Hx.
  - destruct (ltb (key x) (key y)); repeat constructor; assumption.
Qed.

Lemma insort_pure x l :
  good x -> Forall good l ->
  insort key lt x l = OK (insert_by key ltb x l).
Proof.
  intros Hx Hl. induction Hl as [|y l Hy Hl IH]; simpl; [reflexivity|].
  rewrite lt_ok by assumption. simpl.
  destruct (ltb (key x) (key y)); [reflexivity|].
  rewrite IH. reflexivity.
Qed.

Lemma sort_from_pure l acc :
  Forall good acc -> Forall good l ->
  sort_from key lt acc l = OK (sort_by_from key ltb acc l).
Proof.
  intros Hacc Hl. revert acc Hacc.
  induction Hl as [|x l Hx Hl IH]; intros acc Hacc; simpl; [reflexivity|].
  rewrite insort_pure by assumption. simpl.
  apply IH, insert_by_good; assumption.
Qed.

Lemma sorted_pure reverse l :
  Forall good l ->
  sorted key lt reverse l = OK (sort_by key ltb reverse l).
Proof.
  intros Hl. unfold sorted, sort_by. destruct reverse.
  - rewrite sort_from_pure; [reflexivity|constructor|].
    apply List.Forall_rev, Hl.
  - apply sort_from_pure; [constructor|exact Hl].
Qed.
End SortAgreement.

(** ** The order on strings *)

Lemma str_ltb_irrefl a : String.ltb a a = false.
Proof.
  unfold String.ltb.
  replace (String.compare a a) with Eq; [reflexivity|].
  symmetry. apply String_as_OT.cmp_eq. reflexivity.
Qed.

Lemma str_ltb_lt a b : String.ltb a b = true <-> String_as_OT.lt a b.
Proof.
  rewrite <- String_as_OT.cmp_lt. unfold String.ltb, String_as_OT.cmp.
  destruct (String.compare a b); split; congruence.
Qed.

Lemma str_ltb_trans a b c :
  String.ltb a b = true -> String.ltb b c = true -> String.ltb a c = true.
Proof.
  rewrite !str_ltb_lt. apply String_as_OT.lt_trans.
Qed.

Lemma str_ltb_total a b :
  String.ltb a b = false -> String.ltb b a = false -> a = b.
Proof.
  unfold String.ltb. rewrite (String.compare_antisym b a).
  destruct (String.compare a b) eqn:Hc; simpl; try discriminate.
  intros _ _. apply String.compare_eq_iff, Hc.
Qed.

(** ** The order on times and on sort keys *)

Lemma tuple_ltb_irrefl a : tuple_ltb a a = false.
Proof.
  induction a as [|x a IH]; simpl; [reflexivity|].
  rewrite Z.ltb_irrefl. exact IH.
Qed.

Lemma tuple_ltb_trans a b c :
  tuple_ltb a b = true -> tuple_ltb b c = true -> tuple_ltb a c = true.
Proof.
  revert b c. induction a as [|x a IH]; intros [|y b] [|z c]; simpl;
    try congruence.
  destruct (Z.ltb_spec x y), (Z.ltb_spec y x), (Z.ltb_spec y z),
    (Z.ltb_spec z y), (Z.ltb_spec x z), (Z.ltb_spec z x);
    try congruence; try lia.
  apply IH.
Qed.

Lemma tuple_ltb_total a b :
  tuple_ltb a b = false -> tuple_ltb b a = false -> a = b.
Proof.
  revert b. induction a as [|x a IH]; intros [|y b]; simpl;
    try congruence.
  destruct (Z.ltb_spec x y), (Z.ltb_spec y x); try congruence; try lia.
  intros Hab Hba. f_equal; [lia|]. apply IH; assumption.
Qed.

Lemma fields_inj a b : fields a = fields b -> a = b.
Proof.
  destruct a, b. unfold fields. simpl. intros H.
  injection H as -> -> -> -> -> -> -> -> ->. reflexivity.
Qed.

Lemma okey_ltb_irrefl a : okey_ltb a a = false.
Proof. destruct a; simpl; [apply tuple_ltb_irrefl|reflexivity]. Qed.

Lemma okey_ltb_trans a b c :
  okey_ltb a b = true -> okey_ltb b c = true -> okey_ltb a c = true.
Proof.
  destruct a, b, c; simpl; try congruence. apply tuple_ltb_trans.
Qed.

Lemma okey_ltb_total a b :
  okey_ltb a b = false -> okey_ltb b a = false -> a = b.
Proof.
  destruct a, b; simpl; try congruence.
  intros Hab Hba. f_equal. apply fields_inj, tuple_ltb_total; assumption.
Qed.

Lemma key_lt_ok (a b : Entry) :
  sort_key a <> None -> sort_key b <> None ->
  key_lt (sort_key a) (sort_key b)
  = OK (okey_ltb (sort_key a) (sort_key b)).
Proof.
  destruct (sort_key a), (sort_key b); simpl; congruence.
Qed.

(** ** When the sort of the entries raises *)

Lemma insort_none_key x y l :
  sort_key x = None \/ sort_key y = None ->
  insort sort_key key_lt x (y :: l) = Raise TypeError.
Proof.
  simpl. destruct (sort_key x), (sort_key y); simpl; intuition congruence.
Qed.

Lemma sort_from_raise_good acc l :
  acc <> [] -> Forall (fun e => sort_key e <> None) acc ->
  Exists (fun e => sort_key e = None) l ->
  sort_from sort_key key_lt acc l = Raise TypeError.
Proof.
  intros Hne Hacc Hex. revert acc Hne Hacc.
  induction l as [|x l IH]; intros acc Hne Hacc; [inversion Hex|].
  simpl. destruct (sort_key x) eqn:Hx.
  - rewrite (insort_pure sort_key key_lt okey_ltb
               (fun e => sort_key e <> None)); auto using key_lt_ok;
      [|congruence].
    simpl. apply IH.
    + inversion Hex; subst; [congruence|assumption].
    + intros Hnil.
      pose proof (insert_by_perm sort_key okey_ltb x acc) as Hp.
      rewrite Hnil in Hp. apply Permutation_nil in Hp. discriminate.
    + apply insert_by_good; [congruence|assumption].
  - destruct acc as [|y acc]; [congruence|].
    rewrite insort_none_key by auto. reflexivity.
Qed.

Lemma sort_from_raise l :
  (2 <= List.length l)%nat -> Exists (fun e => sort_key e = None) l ->
  sort_from sort_key key_lt [] l = Raise TypeError.
Proof.
  destruct l as [|x [|y l]]; simpl; try lia. intros _ Hex.
  destruct (sort_key x) eqn:Hx, (sort_key y) eqn:Hy; simpl; try reflexivity.
  inversion Hex as [? ? H|? ? H]; subst; [congruence|].
  inversion H as [? ? H'|? ? H']; subst; [congruence|].
  destruct (time_ltb s0 s).
  - apply sort_from_raise_good; [discriminate| |assumption].
    repeat constructor; congruence.
  - apply sort_from_raise_good; [discriminate| |assumption].
    repeat constructor; congruence.
Qed.

Lemma sorted_weaken {A} (R R' : A -> A -> Prop) (P : A -> Prop) l :
  (forall a b, P a -> P b -> R a b -> R' a b) ->
  Forall P l -> StronglySorted R l -> StronglySorted R' l.
Proof.
  intros Himp HP Hs. induction Hs as [|x l Hs IH Hall]; [constructor|].
  inversion HP as [|? ? Hx HPl]; subst.
  constructor; [auto|].
  rewrite List.Forall_forall in *. intros y Hy. auto.
Qed.

Lemma digest_ok l :
  digest l
  = OK (SHA256.hexdigest
          (encode (join newline (sort_by id String.ltb false l)))).
Proof.
  unfold digest.
  rewrite (sorted_pure id str_lt String.ltb (fun _ => True)); auto.
  clear. induction l; constructor; auto.
Qed.

Lemma sorted_entries_ok feeds :
  Forall (fun e => sort_key e <> None) (concat (map entries feeds)) ->
  sorted_entries feeds
  = OK (sort_by sort_key okey_ltb true (concat (map entries feeds))).
Proof.
  intros Hall. unfold sorted_entries.
  apply (sorted_pure sort_key key_lt okey_ltb
           (fun e => sort_key e <> None)); auto using key_lt_ok.
Qed.

Lemma sorted_entries_raise feeds :
  (2 <= List.length (concat (map entries feeds)))%nat ->
  Exists (fun e => sort_key e = None) (concat (map entries feeds)) ->
  sorted_entries feeds = Raise TypeError.
Proof.
  intros Hlen Hex. unfold sorted_entries, sorted.
  rewrite sort_from_raise; [reflexivity| |].
  - rewrite length_rev. exact Hlen.
  - apply List.Exists_rev. exact Hex.
Qed.

Lemma has_key_dec (e : Entry) :
  {sort_key e <> None} + {~ sort_key e <> None}.
Proof.
  destruct (sort_key e); [left; discriminate|right; auto].
Qed.

(** ** Merge ordering *)

(** C2.  The merged sequence is the flattened entries of all feeds, sorted
    with the later key first, entries of one key staying in their input
    order: the merge succeeds whenever every entry has a key, and whatever
    it returns is a permutation of the flattened input, descending by key,
    and agrees with the input on the subsequence of every single key. *)
Theorem merge_sorted_stable (feeds : list FeedParserDict) :
  let flat := concat (map entries feeds) in
  (Forall (fun e => sort_key e <> None) flat ->
   exists out, sorted_entries feeds = OK out)
  /\ (forall out, sorted_entries feeds = OK out ->
        Permutation out flat
        /\ StronglySorted newer_first out
        /\ forall k,
             filter (fun e => sort_key e = k) out
             = filter (fun e => sort_key e = k) flat).
Proof.
  intros flat. split.
  { intros Hall. eexists. apply sorted_entries_ok, Hall. }
  intros out Hout.
  destruct (List.Forall_Exists_dec _ has_key_dec flat) as [Hall|Hex].
  - rewrite (sorted_entries_ok feeds Hall) in Hout.
    injection Hout as <-. fold flat.
    assert (Hp : Permutation (sort_by sort_key okey_ltb true flat) flat)
      by apply sort_by_perm.
    split; [exact Hp|]. split.
    + eapply (sorted_weaken _ _ (fun e => sort_key e <> None)).
      3: apply (sort_by_desc sort_key okey_ltb okey_ltb_irrefl
                  okey_ltb_trans okey_ltb_total).
      * intros a b Ha Hb. unfold not_after, newer_first.
        destruct (sort_key a), (sort_key b); simpl; congruence.
      * eapply Permutation_Forall; [symmetry; exact Hp|exact Hall].
    + intros k.
      exact (sort_by_stable sort_key okey_ltb okey_ltb_irrefl
               okey_ltb_trans okey_ltb_total true k flat).
  - assert (Hex' : Exists (fun e => sort_key e = None) flat).
    { eapply List.Exists_impl; [|exact Hex].
      intros e He. simpl in He. destruct (sort_key e); [|reflexivity].
      exfalso. apply He. discriminate. }
    destruct (le_lt_dec 2 (List.length flat)) as [Hlen|Hlen].
    + rewrite (sorted_entries_raise feeds Hlen Hex') in Hout.
      discriminate.
    + unfold sorted_entries in Hout. fold flat in Hout.
      destruct flat as [|e [|e' flat']]; simpl in Hlen; try lia;
        simpl in Hout; injection Hout as <-.
      * repeat split; constructor.
      * repeat split; try reflexivity; repeat constructor.
Qed.

Lemma merge_sorted_stable_witness :
  sorted_entries [ {| entries := [entry_a1] |}; {| entries := [entry_b1] |} ]
  = OK [entry_b1; entry_a1]
  /\ StronglySorted newer_first [entry_b1; entry_a1].
Proof.
  assert (Hs : sorted_entries
                 [ {| entries := [entry_a1] |}; {| entries := [entry_b1] |} ]
               = OK [entry_b1; entry_a1]) by reflexivity.
  split; [exact Hs|].
  destruct (merge_sorted_stable
              [ {| entries := [entry_a1] |}; {| entries := [entry_b1] |} ])
    as [_ H].
  exact (proj1 (proj2 (H _ Hs))).
Defined.

(** ** Feed identity *)

(** C3, as the code has it.  The feed id is ["feed-"] followed by the
    SHA-256 hex digest of the ascending list of the input URLs, every
    occurrence kept, joined by newlines; two inputs that are permutations of
    one another get the same id. *)
Theorem feed_id_permutation (l1 l2 : list string) :
  Permutation l1 l2 ->
  feed_id l1 = feed_id l2
  /\ exists s,
       Permutation s l1
       /\ StronglySorted (fun a b => String.ltb b a = false) s
       /\ feed_id l1
          = OK ("feed-" ++ SHA256.hexdigest (encode (join newline s)))%string.
Proof.
  intros Hp. unfold feed_id. rewrite !digest_ok. cbn [bind]. split.
  - rewrite (sort_by_perm_eq id String.ltb str_ltb_irrefl str_ltb_trans
               str_ltb_total l1 l2); auto.
  - exists (sort_by id String.ltb false l1).
    split; [apply sort_by_perm|]. split; [|reflexivity].
    apply (sort_by_asc id String.ltb str_ltb_irrefl str_ltb_trans
             str_ltb_total).
Qed.

Lemma feed_id_permutation_witness :
  Permutation ["http://b/feed"; "http://a/feed"]
              ["http://a/feed"; "http://b/feed"]
  /\ feed_id ["http://b/feed"; "http://a/feed"]
     = feed_id ["http://a/feed"; "http://b/feed"].
Proof.
  assert (Hp : Permutation ["http://b/feed"; "http://a/feed"]
                           ["http://a/feed"; "http://b/feed"])
    by apply perm_swap.
  split; [exact Hp|].
  exact (proj1 (feed_id_permutation _ _ Hp)).
Defined.

(** C3 as stated fails: a URL given twice is hashed twice, so two lists
    with the same set of URLs get different ids. *)
Lemma feed_id_counts_duplicates :
  (forall u, In u ["a"; "a"] <-> In u ["a"])
  /\ feed_id ["a"; "a"] <> feed_id ["a"].
Proof.
  split.
  - intros u. simpl. tauto.
  - vm_compute. discriminate.
Qed.

(** ** The fetch *)

Lemma stale_spec (a : Q) (max_age : Z) :
  stale (Some a) max_age = true <-> (inject_Z max_age < a)%Q.
Proof.
  unfold stale. rewrite negb_true_iff.
  destruct (Qle_bool a (inject_Z max_age)) eqn:Hle; split; intros H;
    try congruence.
  - apply Qle_bool_iff in Hle. exfalso. eapply Qlt_not_le; eassumption.
  - apply Qnot_le_lt. intros Hle'. apply Qle_bool_iff in Hle'. congruence.
Qed.

Lemma fetch_start_expired env url max_age w :
  expired env url max_age w ->
  exists w1,
    fetch_start env url max_age w
    = (Requested url (re_sub url) (List.length (requests w)), w1)
    /\ files w1 = files w /\ requests w1 = url :: requests w.
Proof.
  unfold expired, cache_entry, fetch_start, get_file_age, age_of.
  destruct (stat w (re_sub url)) as [[f|]|]; intros He.
  - apply stale_spec in He. rewrite He. eexists. split; [reflexivity|].
    split; reflexivity.
  - eexists. split; [reflexivity|]. split; reflexivity.
  - eexists. split; [reflexivity|]. split; reflexivity.
Qed.

Lemma fetch_start_fresh env url max_age w :
  ~ expired env url max_age w ->
  exists f,
    cache_entry url w = Some f
    /\ fetch_start env url max_age w
       = (FromCache (if f_readable f then OK (f_data f) else Raise OSError),
          tick w).
Proof.
  unfold expired, cache_entry, fetch_start, get_file_age, age_of, read_file.
  destruct (stat w (re_sub url)) as [[f|]|] eqn:Hst; intros He;
    try (exfalso; apply He; exact I).
  exists f. split; [reflexivity|].
  destruct (stale _ max_age) eqn:Hs.
  - exfalso. apply He, stale_spec, Hs.
  - unfold stat in *. simpl. rewrite Hst. reflexivity.
Qed.

Lemma write_file_requests env p c w :
  requests (snd (write_file env p c w)) = requests w.
Proof.
  unfold write_file. destruct (stat w p) as [[f|]|]; simpl; auto.
  - destruct (f_writable f); reflexivity.
  - destruct (fs_create env p) as [[r wr]|]; reflexivity.
Qed.

Lemma write_file_same_files env p c w w1 :
  files w1 = files w ->
  fst (write_file env p c w1) = fst (write_file env p c w).
Proof.
  intros Hf. unfold write_file, stat. rewrite Hf.
  destruct (String.eqb p ""); [reflexivity|].
  destruct (files w !! p) as [[f|]|]; simpl; auto.
  - destruct (f_writable f); reflexivity.
  - destruct (fs_create env p) as [[r wr]|]; reflexivity.
Qed.

Lemma fetch_finish_requests env p w :
  requests (snd (fetch_finish env p w)) = requests w.
Proof.
  destruct p as [url path n|c]; simpl; [|reflexivity].
  destruct (http_get env n url) as [resp|e]; [|reflexivity].
  destruct (400 <=? status resp); [reflexivity|].
  pose proof (write_file_requests env path (body resp) w) as Hw.
  destruct (write_file env path (body resp) w). exact Hw.
Qed.

Lemma network_calls_one url w w' :
  requests w' = url :: requests w -> network_calls w w' = 1%nat.
Proof. unfold network_calls. intros ->. simpl. lia. Qed.

Lemma network_calls_none w w' :
  requests w' = requests w -> network_calls w w' = 0%nat.
Proof. unfold network_calls. intros ->. lia. Qed.

(** What a fetch adds to the request log, and what it returns from a fresh
    entry. *)
Lemma fetch_expired_calls env url max_age w :
  expired env url max_age w ->
  requests (snd (fetch env url max_age w)) = url :: requests w.
Proof.
  intros He. unfold fetch.
  destruct (fetch_start_expired env url max_age w He) as (w1 & -> & _ & Hr).
  rewrite fetch_finish_requests. exact Hr.
Qed.

Lemma fetch_fresh env url max_age w :
  ~ expired env url max_age w ->
  exists f,
    cache_entry url w = Some f
    /\ fetch env url max_age w
       = (if f_readable f then OK (f_data f) else Raise OSError, tick w).
Proof.
  intros He. unfold fetch.
  destruct (fetch_start_fresh env url max_age w He) as (f & Hc & ->).
  exists f. split; [exact Hc|reflexivity].
Qed.

Lemma expired_dec env url max_age w :
  expired env url max_age w \/ ~ expired env url max_age w.
Proof.
  unfold expired. destruct (cache_entry url w) as [f|]; [|left; exact I].
  destruct (Qlt_le_dec (inject_Z max_age) (age_of env w f)) as [H|H].
  - left. exact H.
  - right. intros H'. eapply Qlt_not_le; eassumption.
Qed.

(** C1.  A fetch sends a request exactly when the URL has no cache entry or
    the entry is older than the threshold; otherwise it sends none and
    returns the bytes of the entry as they are stored. *)
Theorem cache_freshness (env : Env) (url : string) (max_age : Z)
  (w : World) :
  let r := fetch env url max_age w in
  (network_calls w (snd r) = 1%nat <-> expired env url max_age w)
  /\ (expired env url max_age w ->
      requests (snd r) = url :: requests w)
  /\ (~ expired env url max_age w ->
      network_calls w (snd r) = 0%nat
      /\ forall f, cache_entry url w = Some f -> f_readable f = true ->
                   fst r = OK (f_data f)).
Proof.
  intros r. subst r.
  assert (Hfresh : ~ expired env url max_age w ->
            network_calls w (snd (fetch env url max_age w)) = 0%nat
            /\ forall f, cache_entry url w = Some f ->
                         f_readable f = true ->
                         fst (fetch env url max_age w) = OK (f_data f)).
  { intros He.
    destruct (fetch_fresh env url max_age w He) as (f & Hc & ->).
    split; [apply network_calls_none; reflexivity|].
    intros f' Hf' Hr. rewrite Hc in Hf'. injection Hf' as <-.
    simpl. rewrite Hr. reflexivity. }
  split; [|split].
  - split.
    + intros Hone. destruct (expired_dec env url max_age w) as [He|He];
        [exact He|].
      destruct (Hfresh He) as [Hz _]. lia.
    + intros He. eapply network_calls_one, fetch_expired_calls, He.
  - apply fetch_expired_calls.
  - exact Hfresh.
Qed.

Lemma cache_freshness_witness :
  let w := world_with (File stored_body 0 true true) in
  ~ expired (env_of []) sample_url 3600 w
  /\ fetch (env_of []) sample_url 3600 w = (OK stored_body, tick w).
Proof.
  intros w.
  assert (He : ~ expired (env_of []) sample_url 3600 w).
  { vm_compute. intros H. discriminate H. }
  split; [exact He|].
  destruct (cache_freshness (env_of []) sample_url 3600 w)
    as (_ & _ & Hfresh).
  destruct (Hfresh He) as [_ Hdata].
  specialize (Hdata (File stored_body 0 true true) eq_refl eq_refl).
  destruct (fetch (env_of []) sample_url 3600 w) as [r w'] eqn:Hf.
  simpl in Hdata. subst r. f_equal.
  vm_compute in Hf. injection Hf as <-. reflexivity.
Defined.

(** C9, as the code has it.  With a max age of 0 a fetch goes to the
    network when the URL has no cache entry or the entry's age is
    positive; an entry whose age is zero or negative (its modification
    time is not before the clock's reading) is served from the cache. *)
Theorem zero_max_age (env : Env) (url : string) (w : World) :
  let r := fetch env url 0 w in
  (cache_entry url w = None -> requests (snd r) = url :: requests w)
  /\ (forall f, cache_entry url w = Some f ->
                (0 < age_of env w f)%Q ->
                requests (snd r) = url :: requests w)
  /\ (forall f, cache_entry url w = Some f ->
                (age_of env w f <= 0)%Q ->
                network_calls w (snd r) = 0%nat).
Proof.
  intros r. subst r. split; [|split].
  - intros Hc. apply fetch_expired_calls. unfold expired.
    rewrite Hc. exact I.
  - intros f Hc Hage. apply fetch_expired_calls. unfold expired.
    rewrite Hc. exact Hage.
  - intros f Hc Hage.
    assert (He : ~ expired env url 0 w).
    { unfold expired. rewrite Hc. intros H.
      eapply Qlt_not_le; [exact H|exact Hage]. }
    destruct (fetch_fresh env url 0 w He) as (f' & _ & ->).
    apply network_calls_none. reflexivity.
Qed.

Lemma zero_max_age_witness :
  requests (snd (fetch (env_of []) sample_url 0
                   (world_with (File stored_body 40 true true))))
  = [sample_url].
Proof.
  destruct (zero_max_age (env_of []) sample_url
              (world_with (File stored_body 40 true true)))
    as (_ & Hpos & _).
  apply (Hpos (File stored_body 40 true true)); reflexivity.
Defined.

(** C9 as stated fails: a file stamped at or after the clock's reading
    has an age that is not greater than 0 and is served from the cache,
    without a request. *)
Lemma zero_max_age_serves_cache :
  let w := world_with (File stored_body 100 true true) in
  let w' := world_with (File stored_body 160 true true) in
  fst (fetch (env_of []) sample_url 0 w) = OK stored_body
  /\ requests (snd (fetch (env_of []) sample_url 0 w)) = []
  /\ fst (fetch (env_of []) sample_url 0 w') = OK stored_body
  /\ requests (snd (fetch (env_of []) sample_url 0 w')) = [].
Proof. vm_compute. repeat split; reflexivity. Qed.

(** C7, as the code has it.  When the request succeeds and the write of
    the cache file raises, the fetch raises the same error: the fetched
    bytes are not returned. *)
Theorem cache_write_failure_propagates (env : Env) (url : string)
  (max_age : Z) (w : World) (resp : http_response) (e : exn) :
  expired env url max_age w ->
  http_get env (List.length (requests w)) url = OK resp ->
  status resp < 400 ->
  fst (write_file env (re_sub url) (body resp) w) = Raise e ->
  fst (fetch env url max_age w) = Raise e.
Proof.
  intros He Hget Hst Hwr. unfold fetch.
  destruct (fetch_start_expired env url max_age w He)
    as (w1 & -> & Hfiles & _).
  simpl. rewrite Hget.
  destruct (Z.leb_spec 400 (status resp)) as [Hge|_]; [lia|].
  pose proof (write_file_same_files env (re_sub url) (body resp) w w1
                Hfiles) as Hsame.
  destruct (write_file env (re_sub url) (body resp) w1) as [r w2].
  simpl in *. rewrite Hsame, Hwr. reflexivity.
Qed.

Lemma cache_write_failure_propagates_witness :
  let w := world_with (File stored_body 0 true false) in
  expired (env_of []) sample_url 10 w
  /\ fst (fetch (env_of []) sample_url 10 w) = Raise OSError.
Proof.
  intros w.
  assert (He : expired (env_of []) sample_url 10 w)
    by (vm_compute; reflexivity).
  split; [exact He|].
  apply (cache_write_failure_propagates (env_of []) sample_url 10 w
           (Response 200 sample_body) OSError He).
  - reflexivity.
  - simpl. lia.
  - vm_compute. reflexivity.
Defined.

(** C7 as stated fails: the request is answered 200, the cache file is
    read-only, and the fetch does not return the fetched bytes. *)
Lemma read_only_cache_fails_fetch :
  let w := world_with (File stored_body 0 true false) in
  http_get (env_of []) 0 sample_url = OK (Response 200 sample_body)
  /\ fst (write_file (env_of []) (re_sub sample_url) sample_body w)
     = Raise OSError
  /\ fst (fetch (env_of []) sample_url 10 w) <> OK sample_body.
Proof. vm_compute. repeat split; try reflexivity. discriminate. Qed.

(** C8, as the code has it.  When the entry is fresh enough and cannot be
    read, the fetch raises the read error and sends no request. *)
Theorem cache_read_failure_propagates (env : Env) (url : string)
  (max_age : Z) (w : World) (f : file) :
  cache_entry url w = Some f ->
  f_readable f = false ->
  ~ expired env url max_age w ->
  fst (fetch env url max_age w) = Raise OSError
  /\ network_calls w (snd (fetch env url max_age w)) = 0%nat.
Proof.
  intros Hc Hr He.
  destruct (fetch_fresh env url max_age w He) as (f' & Hc' & ->).
  rewrite Hc in Hc'. injection Hc' as <-. rewrite Hr. simpl.
  split; [reflexivity|]. apply network_calls_none. reflexivity.
Qed.

Lemma cache_read_failure_propagates_witness :
  let w := world_with (File stored_body 0 false true) in
  ~ expired (env_of []) sample_url 3600 w
  /\ fst (fetch (env_of []) sample_url 3600 w) = Raise OSError.
Proof.
  intros w.
  assert (He : ~ expired (env_of []) sample_url 3600 w).
  { vm_compute. intros H. discriminate H. }
  split; [exact He|].
  apply (cache_read_failure_propagates (env_of []) sample_url 3600 w
           (File stored_body 0 false true)); [reflexivity..|exact He].
Defined.

(** C8 as stated fails: the entry is there, fresh, and unreadable; the
    fetch raises and no request is sent. *)
Lemma unreadable_cache_fails_fetch :
  let w := world_with (File stored_body 0 false true) in
  cache_entry sample_url w = Some (File stored_body 0 false true)
  /\ read_file (re_sub sample_url) w = Raise OSError
  /\ fst (fetch (env_of []) sample_url 3600 w) = Raise OSError
  /\ requests (snd (fetch (env_of []) sample_url 3600 w)) = [].
Proof. vm_compute. repeat split; reflexivity. Qed.

(** ** The aggregation *)

(** C10.  For the empty URL list nothing is requested and the serializer
    is handed the title "Hybrid Feed", the id "feed-" followed by the
    SHA-256 hex digest of the empty string, and no item. *)
Theorem empty_url_list (env : Env) (max_age : Z) (w : World) :
  generate_hybrid_feed env [] max_age w
  = (OK (atom_str env
           {| fg_title := Some "Hybrid Feed";
              fg_id := Some ("feed-" ++ SHA256.hexdigest (encode ""))%string;
              fg_items := [] |}), w)
  /\ SHA256.hexdigest (encode "")
     = "e3b0c44298fc1c149afbf4c8996fb92427ae41e4649b934ca495991b7852b855".
Proof.
  split; [|vm_compute; reflexivity].
  unfold generate_hybrid_feed. rewrite digest_ok. reflexivity.
Qed.

(** A gather over one URL is one [parse_feed] call. *)
Lemma gather_single env url max_age w :
  gather env [url] max_age w
  = (let '(r, w') := parse_feed env url max_age w in
     (try! feed := r in OK [feed], w')).
Proof.
  unfold gather, parse_feed, fetch. cbn [start_all].
  destruct (fetch_start env url max_age w) as [p w1].
  cbn [finish_all].
  destruct (fetch_finish env p w1) as [[c|e] w2]; cbn [bind];
    [|reflexivity].
  destruct (feedparser_parse env c); reflexivity.
Qed.

Lemma finish_all_doomed env ps w p :
  In p ps ->
  (forall w', is_ok (try! content := fst (fetch_finish env p w') in
                     feedparser_parse env content) = false) ->
  is_ok (fst (finish_all env ps w)) = false.
Proof.
  intros Hin Hdoom. revert w.
  induction ps as [|q ps IH]; intros w; [contradiction|].
  simpl. destruct (fetch_finish env q w) as [c w1] eqn:Hq.
  destruct (try! content := c in feedparser_parse env content)
    as [feed|e] eqn:Hparse; [|reflexivity].
  destruct Hin as [->|Hin].
  - specialize (Hdoom w). rewrite Hq in Hdoom. simpl in Hdoom.
    rewrite Hparse in Hdoom. discriminate.
  - specialize (IH Hin w1).
    destruct (finish_all env ps w1) as [[feeds|e] w2]; simpl in *;
      [discriminate|reflexivity].
Qed.

Lemma generate_fails_with_gather env urls max_age w :
  is_ok (fst (gather env urls max_age w)) = false ->
  exists e, fst (generate_hybrid_feed env urls max_age w) = Raise e.
Proof.
  intros Hg. unfold generate_hybrid_feed. rewrite digest_ok.
  destruct (gather env urls max_age w) as [[feeds|e] w'];
    simpl in *; [discriminate|].
  exists e. reflexivity.
Qed.

Lemma doomed_never_ok env p w :
  doomed env p ->
  is_ok (try! content := fst (fetch_finish env p w) in
         feedparser_parse env content) = false.
Proof.
  destruct p as [url path n|[content|e]]; simpl.
  - destruct (http_get env n url) as [resp|e]; [|reflexivity].
    destruct (Z.leb_spec 400 (status resp)) as [Hge|Hlt]; [reflexivity|].
    intros [Hbad|[e He]]; [lia|].
    destruct (write_file env path (body resp) w) as [[[]|e'] w2];
      simpl; [rewrite He|]; reflexivity.
  - intros [e ->]. reflexivity.
  - reflexivity.
Qed.

(** C5, as the code has it.  If one of the coroutines of the aggregation
    has its request answered with a status of 400 or above, or not
    answered at all, or holds a payload the parser rejects, whether it
    was fetched or read from the cache, the aggregation raises: no feed
    is returned. *)
Theorem fail_fast (env : Env) (urls : list string) (max_age : Z)
  (w w1 : World) (ps : list pending) (p : pending) :
  start_all env urls max_age w = (ps, w1) ->
  In p ps ->
  doomed env p ->
  exists e, fst (generate_hybrid_feed env urls max_age w) = Raise e.
Proof.
  intros Hstart Hin Hbad. apply generate_fails_with_gather.
  unfold gather. rewrite Hstart.
  eapply finish_all_doomed; [exact Hin|].
  intros w'. apply doomed_never_ok, Hbad.
Qed.

Lemma fail_fast_witness :
  doomed env_404 (Requested sample_url (re_sub sample_url) 1%nat)
  /\ exists e,
       fst (generate_hybrid_feed env_404 ["http://b/feed"; sample_url] 3600
              empty_world) = Raise e.
Proof.
  assert (Hd : doomed env_404
                 (Requested sample_url (re_sub sample_url) 1%nat))
    by (left; simpl; lia).
  split; [exact Hd|].
  eapply (fail_fast env_404 ["http://b/feed"; sample_url] 3600 empty_world
            _ _ (Requested sample_url (re_sub sample_url) 1%nat)).
  - vm_compute. reflexivity.
  - right. left. reflexivity.
  - exact Hd.
Defined.

(** The same for a payload that is served from the cache. *)
Example fail_fast_from_cache :
  let w := world_with (File stored_body 0 true true) in
  fst (start_all env_undecodable [sample_url] 3600 w)
  = [FromCache (OK stored_body)]
  /\ fst (generate_hybrid_feed env_undecodable [sample_url] 3600 w)
     = Raise UnicodeDecodeError.
Proof. vm_compute. split; reflexivity. Qed.

(** C5 as stated fails: an answer with a status that is not a success,
    but below 400, is taken like a 200: its body is parsed and the
    aggregation returns a feed. *)
Lemma status_below_400_yields_feed :
  http_get (env_answering 399 [entry_a1]) 0 sample_url
  = OK (Response 399 sample_body)
  /\ ~ success_2xx (Response 399 sample_body)
  /\ fst (generate_hybrid_feed (env_answering 399 [entry_a1]) [sample_url]
            3600 empty_world) = OK (encode "a1")
  /\ ~ success_2xx (Response 304 sample_body)
  /\ fst (generate_hybrid_feed (env_answering 304 [entry_a1]) [sample_url]
            3600 empty_world) = OK (encode "a1").
Proof.
  split; [reflexivity|]. split; [unfold success_2xx; simpl; lia|].
  split; [vm_compute; reflexivity|].
  split; [unfold success_2xx; simpl; lia|].
  vm_compute. reflexivity.
Qed.

(** C4, as the code has it.  When the feeds hold at least two entries
    between them and one of the entries has neither timestamp, the sort
    raises [TypeError] and no feed is returned. *)
Theorem missing_timestamp_raises (env : Env) (urls : list string)
  (max_age : Z) (w w' : World) (feeds : list FeedParserDict) :
  gather env urls max_age w = (OK feeds, w') ->
  (2 <= List.length (concat (map entries feeds)))%nat ->
  Exists (fun e => sort_key e = None) (concat (map entries feeds)) ->
  fst (generate_hybrid_feed env urls max_age w) = Raise TypeError.
Proof.
  intros Hg Hlen Hex. unfold generate_hybrid_feed.
  rewrite digest_ok, Hg. cbn [fst bind].
  rewrite (sorted_entries_raise feeds Hlen Hex). reflexivity.
Qed.

Lemma missing_timestamp_raises_witness :
  fst (generate_hybrid_feed (env_of [untimed; timed]) [sample_url] 3600
         empty_world) = Raise TypeError.
Proof.
  eapply (missing_timestamp_raises (env_of [untimed; timed]) [sample_url]
            3600 empty_world).
  - vm_compute. reflexivity.
  - simpl. lia.
  - simpl. left. reflexivity.
Defined.

(** C4 as stated fails: a lone entry with neither timestamp is never
    compared, and the aggregation returns a feed that contains it. *)
Lemma lone_untimed_entry_is_emitted :
  updated untimed = None /\ published untimed = None
  /\ sort_key untimed = None
  /\ fst (generate_hybrid_feed (env_of [untimed]) [sample_url] 3600
            empty_world) = OK (encode "g1").
Proof. vm_compute. repeat split; reflexivity. Qed.

(** ** Cache keys *)

Lemma sub_runs_run_end keep s :
  run_end keep s = true -> sub_runs keep true s = sub_runs keep false s.
Proof.
  destruct s as [|c s]; simpl; [reflexivity|]. intros ->. reflexivity.
Qed.

Lemma sub_runs_skip keep run s :
  all_rejected keep run = true ->
  sub_runs keep true (run ++ s)%string = sub_runs keep true s.
Proof.
  induction run as [|c run IH]; simpl; [reflexivity|].
  intros H. apply andb_true_iff in H as [Hc Hrun].
  apply negb_true_iff in Hc. rewrite Hc. auto.
Qed.

Lemma sub_runs_run keep run s :
  run <> EmptyString -> all_rejected keep run = true ->
  sub_runs keep false (run ++ s)%string
  = String "-"%char (sub_runs keep true s).
Proof.
  destruct run as [|c run]; [congruence|]. simpl. intros _ H.
  apply andb_true_iff in H as [Hc Hrun].
  apply negb_true_iff in Hc. rewrite Hc.
  rewrite sub_runs_skip by exact Hrun. reflexivity.
Qed.

Lemma collapsed_unique keep s r :
  collapsed keep s r -> r = sub_runs keep false s.
Proof.
  induction 1 as [|c s r Hc _ IH|run s r Hne Hrun Hend _ IH]; simpl.
  - reflexivity.
  - rewrite Hc, IH. reflexivity.
  - rewrite sub_runs_run, sub_runs_run_end, IH by assumption. reflexivity.
Qed.

(** Every string starts with a run of rejected characters, possibly
    empty, that ends where the string ends or a kept character stands. *)
Lemma leading_run keep s :
  exists run rest,
    s = (run ++ rest)%string /\ all_rejected keep run = true
    /\ run_end keep rest = true
    /\ (String.length rest <= String.length s)%nat.
Proof.
  induction s as [|c s (run & rest & -> & Hrun & Hend & Hlen)].
  - exists EmptyString, EmptyString. repeat split; auto.
  - destruct (keep c) eqn:Hc.
    + exists EmptyString, (String c (run ++ rest)). simpl.
      repeat split; auto.
    + exists (String c run), rest. simpl. rewrite Hc, Hrun.
      repeat split; auto.
Qed.

Lemma collapsed_sub_runs keep s : collapsed keep s (sub_runs keep false s).
Proof.
  remember (String.length s) as n eqn:Hn.
  assert (Hle : (String.length s <= n)%nat) by lia. clear Hn.
  revert s Hle. induction n as [|n IH]; intros [|c s] Hle; simpl in *;
    try constructor; try lia.
  destruct (keep c) eqn:Hc.
  - constructor; [exact Hc|]. apply IH. lia.
  - destruct (leading_run keep s) as (run & rest & -> & Hrun & Hend & Hlen).
    rewrite sub_runs_skip, sub_runs_run_end by assumption.
    apply (collapsed_run keep (String c run) rest).
    + discriminate.
    + simpl. rewrite Hc, Hrun. reflexivity.
    + exact Hend.
    + apply IH. lia.
Qed.

(** C6, as the code has it.  The cache key of a URL keeps every lower-case
    letter, digit and hyphen in place and replaces every maximal run of
    other characters, upper-case letters among them, by one hyphen; the
    key is the only string that does. *)
Theorem cache_key_collapses (url : string) :
  collapsed in_class url (re_sub url)
  /\ (forall r, collapsed in_class url r -> r = re_sub url)
  /\ (forall c, in_class c = true <->
        let n := N_of_ascii c in
        (97 <= n <= 122 \/ 48 <= n <= 57 \/ n = 45)%N).
Proof.
  split; [apply collapsed_sub_runs|].
  split; [apply collapsed_unique|].
  intros c. unfold in_class. cbv zeta.
  rewrite !orb_true_iff, !andb_true_iff, !N.leb_le, N.eqb_eq. tauto.
Qed.

Lemma cache_key_collapses_witness :
  collapsed in_class "a://b" "a-b" /\ in_class "A"%char = false.
Proof.
  split; [|reflexivity].
  exact (proj1 (cache_key_collapses "a://b")).
Defined.

(** C6 as stated fails: an upper-case letter is outside the class and is
    replaced, where the case-insensitive reading keeps it. *)
Lemma upper_case_is_replaced :
  re_sub "Ab" = "-b" /\ normalize_spec "Ab" = "Ab"
  /\ re_sub "Ab" <> normalize_spec "Ab".
Proof. vm_compute. repeat split; try reflexivity. discriminate. Qed.

Example re_sub_url : re_sub "https://Example.com/feed.xml?x=1"
                     = "https-xample-com-feed-xml-x-1".
Proof. reflexivity. Qed.

Example re_sub_keeps_hyphen : re_sub "a-/b" = "a--b".
Proof. reflexivity. Qed.

(** * Further properties of the code *)

(** ** The cache key (line 29) *)

Lemma in_class_hyphen : in_class "-"%char = true.
Proof. reflexivity. Qed.

Lemma sub_runs_alphabet keep in_run s :
  keep "-"%char = true -> all_chars keep (sub_runs keep in_run s) = true.
Proof.
  intros Hh. revert in_run.
  induction s as [|c s IH]; intros in_run; simpl; [reflexivity|].
  destruct (keep c) eqn:Hc; simpl.
  - rewrite Hc. apply IH.
  - destruct in_run; simpl; [apply IH|]. rewrite Hh. apply IH.
Qed.

Lemma all_chars_In p s c :
  all_chars p s = true -> In c (list_ascii_of_string s) -> p c = true.
Proof.
  induction s as [|d s IH]; simpl; [contradiction|].
  intros H. apply andb_true_iff in H as [Hd Hs].
  intros [<-|Hin]; auto.
Qed.

(** X1.  A cache key is made of lower-case letters, digits and hyphens
    only: it holds no path separator and no dot, so the cache path is a
    plain name inside the cache directory. *)
Theorem re_sub_alphabet (url : string) (c : ascii) :
  In c (list_ascii_of_string (re_sub url)) ->
  in_class c = true /\ c <> "/"%char /\ c <> "."%char /\ c <> "\"%char.
Proof.
  intros Hin.
  assert (Hc : in_class c = true).
  { eapply all_chars_In; [|exact Hin].
    apply sub_runs_alphabet, in_class_hyphen. }
  split; [exact Hc|].
  repeat split; intros ->; vm_compute in Hc; discriminate.
Qed.

Lemma re_sub_alphabet_witness :
  In "-"%char (list_ascii_of_string (re_sub "a/../b"))
  /\ "-"%char <> "/"%char.
Proof.
  assert (Hin : In "-"%char (list_ascii_of_string (re_sub "a/../b")))
    by (simpl; auto).
  split; [exact Hin|].
  exact (proj1 (proj2 (re_sub_alphabet "a/../b" "-"%char Hin))).
Defined.

Lemma sub_runs_fixed keep in_run s :
  all_chars keep s = true -> sub_runs keep in_run s = s.
Proof.
  revert in_run. induction s as [|c s IH]; intros in_run; simpl;
    [reflexivity|].
  intros H. apply andb_true_iff in H as [Hc Hs].
  rewrite Hc, IH by exact Hs. reflexivity.
Qed.

(** X2.  Normalizing a cache key again changes nothing. *)
Theorem re_sub_idempotent (url : string) : re_sub (re_sub url) = re_sub url.
Proof.
  unfold re_sub at 1. apply sub_runs_fixed, sub_runs_alphabet.
  apply in_class_hyphen.
Qed.

Lemma sub_runs_length keep in_run s :
  (String.length (sub_runs keep in_run s) <= String.length s)%nat.
Proof.
  revert in_run. induction s as [|c s IH]; intros in_run; simpl; [lia|].
  destruct (keep c); simpl.
  - specialize (IH false). lia.
  - destruct in_run; simpl; specialize (IH true); lia.
Qed.

(** X3.  A cache key is never longer than its URL, and it is empty only
    for the empty URL: no other URL is mapped to the cache directory
    itself. *)
Theorem re_sub_length (url : string) :
  (String.length (re_sub url) <= String.length url)%nat
  /\ (re_sub url = EmptyString <-> url = EmptyString).
Proof.
  split; [apply sub_runs_length|].
  split.
  - destruct url as [|c s]; [reflexivity|].
    unfold re_sub. simpl. destruct (in_class c); discriminate.
  - intros ->. reflexivity.
Qed.

Lemma sub_runs_rejected_char keep in_run a c1 c2 b :
  keep c1 = false -> keep c2 = false ->
  sub_runs keep in_run (a ++ String c1 b)%string
  = sub_runs keep in_run (a ++ String c2 b)%string.
Proof.
  intros H1 H2. revert in_run.
  induction a as [|d a IH]; intros in_run; simpl.
  - rewrite H1, H2. reflexivity.
  - destruct (keep d); [f_equal; apply IH|].
    destruct in_run; [apply IH|f_equal; apply IH].
Qed.

(** X4.  The key does not tell rejected characters apart: two URLs that
    differ in one character outside the class (an upper-case letter, a
    slash, a question mark, ...) have the same cache key. *)
Theorem re_sub_conflates (a b : string) (c1 c2 : ascii) :
  in_class c1 = false -> in_class c2 = false ->
  re_sub (a ++ String c1 b) = re_sub (a ++ String c2 b).
Proof. apply sub_runs_rejected_char. Qed.

Lemma re_sub_conflates_witness :
  in_class "/"%char = false /\ in_class "?"%char = false
  /\ re_sub "http://a/feed" = re_sub "http://a?feed".
Proof.
  split; [reflexivity|]. split; [reflexivity|].
  exact (re_sub_conflates "http://a" "feed" "/"%char "?"%char
           eq_refl eq_refl).
Defined.

(** ** One fetch (lines 19-39) *)

Lemma stat_same_files w w1 p : files w1 = files w -> stat w1 p = stat w p.
Proof. unfold stat. intros ->. reflexivity. Qed.

Lemma fetch_start_files env url max_age w :
  files (snd (fetch_start env url max_age w)) = files w.
Proof.
  unfold fetch_start, get_file_age.
  destruct (stat w (re_sub url)) as [[f|]|]; simpl;
    try reflexivity.
  destruct (negb _); reflexivity.
Qed.

Lemma write_file_ok env p c w :
  writable_at env p w ->
  exists r wr,
    write_file env p c w
    = (OK tt,
       {| files := <[p := Regular (File c (stamp env (ticks w)) r wr)]>
                     (files w);
          ticks := S (ticks w);
          requests := requests w |})
    /\ (usable env p w -> r = true)
    /\ String.eqb p "" = false.
Proof.
  unfold writable_at, usable, write_file, stat.
  destruct (String.eqb p ""); [contradiction|].
  destruct (files w !! p) as [[f|]|]; intros Hw; try contradiction.
  - rewrite Hw. exists (f_readable f), true. repeat split. tauto.
  - destruct (fs_create env p) as [[r wr]|]; [|congruence].
    exists r, wr. repeat split. intros [wr' H]. congruence.
Qed.

Lemma write_file_frame env q c w p :
  p <> q -> files (snd (write_file env q c w)) !! p = files w !! p.
Proof.
  intros Hne. unfold write_file.
  destruct (stat w q) as [[f|]|]; simpl; try reflexivity.
  - destruct (f_writable f); simpl; [|reflexivity].
    apply lookup_insert_ne. congruence.
  - destruct (fs_create env q) as [[r wr]|]; simpl; [|reflexivity].
    apply lookup_insert_ne. congruence.
Qed.

Lemma write_file_raise_files env q c w e :
  fst (write_file env q c w) = Raise e ->
  snd (write_file env q c w) = w.
Proof.
  unfold write_file.
  destruct (stat w q) as [[f|]|]; simpl; try discriminate; auto.
  - destruct (f_writable f); simpl; [discriminate|reflexivity].
  - destruct (fs_create env q) as [[r wr]|]; simpl;
      [discriminate|reflexivity].
Qed.

Lemma cache_entry_stored url f m t rs :
  String.eqb (re_sub url) "" = false ->
  cache_entry url
    {| files := <[re_sub url := Regular f]> m; ticks := t; requests := rs |}
  = Some f.
Proof.
  intros Hne. unfold cache_entry, stat. simpl. rewrite Hne.
  rewrite lookup_insert_eq. reflexivity.
Qed.

(** What a live fetch that is answered below 400 does when the cache
    path can be written. *)
Lemma fetch_live_ok env url max_age w resp :
  expired env url max_age w ->
  http_get env (List.length (requests w)) url = OK resp ->
  status resp < 400 ->
  writable_at env (re_sub url) w ->
  exists t r wr,
    fetch env url max_age w
    = (OK (body resp),
       {| files := <[re_sub url :=
                       Regular (File (body resp) (stamp env t) r wr)]>
                     (files w);
          ticks := S t;
          requests := url :: requests w |})
    /\ (usable env (re_sub url) w -> r = true)
    /\ String.eqb (re_sub url) "" = false.
Proof.
  intros He Hget Hst Hw. unfold fetch.
  destruct (fetch_start_expired env url max_age w He)
    as (w1 & -> & Hfiles & Hreqs).
  simpl. rewrite Hget.
  destruct (Z.leb_spec 400 (status resp)) as [Hge|_]; [lia|].
  assert (Hw1 : writable_at env (re_sub url) w1).
  { unfold writable_at. rewrite (stat_same_files w w1) by exact Hfiles.
    exact Hw. }
  destruct (write_file_ok env (re_sub url) (body resp) w1 Hw1)
    as (r & wr & -> & Hr & Hne).
  exists (ticks w1), r, wr. rewrite Hfiles, Hreqs.
  split; [reflexivity|]. split; [|exact Hne].
  intros Hu. apply Hr. unfold usable.
  rewrite (stat_same_files w w1) by exact Hfiles. exact Hu.
Qed.

Lemma usable_writable env p w : usable env p w -> writable_at env p w.
Proof.
  unfold usable, writable_at.
  destruct (stat w p) as [[f|]|]; [tauto|tauto|].
  intros [wr H]. congruence.
Qed.

(** X5.  When the cache path can be written (a regular file that can be
    opened for writing, or nothing there and a file system that lets
    the file be created), a live fetch answered with any status below
    400 (a 204 or a 304 as much as a 200) returns the body and stores
    it: afterwards the cache entry of the URL holds exactly these
    bytes. *)
Theorem live_fetch_stores (env : Env) (url : string) (max_age : Z)
  (w : World) (resp : http_response) :
  expired env url max_age w ->
  http_get env (List.length (requests w)) url = OK resp ->
  status resp < 400 ->
  writable_at env (re_sub url) w ->
  let r := fetch env url max_age w in
  fst r = OK (body resp)
  /\ exists f, cache_entry url (snd r) = Some f /\ f_data f = body resp.
Proof.
  intros He Hget Hst Hw r. subst r.
  destruct (fetch_live_ok env url max_age w resp He Hget Hst Hw)
    as (t & r & wr & -> & _ & Hne).
  split; [reflexivity|]. eexists. split.
  - apply cache_entry_stored, Hne.
  - reflexivity.
Qed.

Lemma live_fetch_stores_witness :
  expired (env_of []) sample_url 3600 empty_world
  /\ writable_at (env_of []) (re_sub sample_url) empty_world
  /\ fst (fetch (env_of []) sample_url 3600 empty_world) = OK sample_body.
Proof.
  assert (He : expired (env_of []) sample_url 3600 empty_world)
    by exact I.
  assert (Hw : writable_at (env_of []) (re_sub sample_url) empty_world)
    by (vm_compute; discriminate).
  split; [exact He|]. split; [exact Hw|].
  apply (live_fetch_stores (env_of []) sample_url 3600 empty_world
           (Response 200 sample_body) He); [reflexivity| |exact Hw].
  simpl. lia.
Defined.

(** The write is part of the precondition: a name the file system
    refuses makes the same fetch raise. *)
Example long_key_is_not_writable :
  let url := String.concat "" (repeat "abcdefghijklmnop" 20) in
  ~ writable_at (env_of []) (re_sub url) empty_world
  /\ fst (fetch (env_of []) url 3600 empty_world) = Raise OSError.
Proof.
  split; [|vm_compute; reflexivity].
  vm_compute. intros H. apply H. reflexivity.
Qed.

(** X6.  Write, then read.  When the cache path can be written and read
    back, then after a live fetch that succeeded a second fetch of the
    same URL, made while the age of the stored entry is no more than
    its max age, returns the same bytes and sends no request. *)
Theorem fetch_twice (env : Env) (url : string) (max_age max_age' : Z)
  (w : World) (resp : http_response) :
  expired env url max_age w ->
  http_get env (List.length (requests w)) url = OK resp ->
  status resp < 400 ->
  usable env (re_sub url) w ->
  let w' := snd (fetch env url max_age w) in
  (forall f, cache_entry url w' = Some f ->
             (age_of env w' f <= inject_Z max_age')%Q) ->
  fetch env url max_age' w' = (OK (body resp), tick w').
Proof.
  intros He Hget Hst Hu.
  pose proof (usable_writable env (re_sub url) w Hu) as Hw.
  destruct (fetch_live_ok env url max_age w resp He Hget Hst Hw)
    as (t & r & wr & Hf & Hr & Hne).
  rewrite Hf. cbn [snd]. intros Hage.
  rewrite (Hr Hu) in *.
  set (w' := {| files := _; ticks := S t; requests := _ |}) in *.
  assert (Hc : cache_entry url w'
               = Some (File (body resp) (stamp env t) true wr))
    by (apply cache_entry_stored, Hne).
  assert (Hfresh : ~ expired env url max_age' w').
  { unfold expired. rewrite Hc.
    intros H. eapply Qlt_not_le; [exact H|]. apply Hage, Hc. }
  destruct (fetch_fresh env url max_age' w' Hfresh) as (f & Hc' & ->).
  rewrite Hc in Hc'. injection Hc' as <-. reflexivity.
Qed.

Lemma fetch_twice_witness :
  let w' := snd (fetch (env_of []) sample_url 3600 empty_world) in
  expired (env_of []) sample_url 3600 empty_world
  /\ usable (env_of []) (re_sub sample_url) empty_world
  /\ fetch (env_of []) sample_url 3600 w' = (OK sample_body, tick w').
Proof.
  intros w'.
  assert (He : expired (env_of []) sample_url 3600 empty_world)
    by exact I.
  assert (Hu : usable (env_of []) (re_sub sample_url) empty_world)
    by (exists true; reflexivity).
  split; [exact He|]. split; [exact Hu|].
  apply (fetch_twice (env_of []) sample_url 3600 3600 empty_world
           (Response 200 sample_body) He); [reflexivity| |exact Hu|].
  - simpl. lia.
  - intros f Hf. vm_compute in Hf. injection Hf as <-.
    vm_compute. discriminate.
Defined.

(** X7.  A request that is refused (status 400 or above) or that fails
    in transport makes the fetch raise that very error; the cache files
    are left as they were, and a stale entry is not used in its place. *)
Theorem failed_request_keeps_cache (env : Env) (url : string)
  (max_age : Z) (w : World) :
  expired env url max_age w ->
  match http_get env (List.length (requests w)) url with
  | OK resp => 400 <= status resp
  | Raise _ => True
  end ->
  let r := fetch env url max_age w in
  fst r = match http_get env (List.length (requests w)) url with
          | OK resp => Raise (ClientResponseError (status resp))
          | Raise e => Raise e
          end
  /\ files (snd r) = files w.
Proof.
  intros He Hbad r. subst r. unfold fetch.
  destruct (fetch_start_expired env url max_age w He)
    as (w1 & -> & Hfiles & _).
  simpl.
  destruct (http_get env (List.length (requests w)) url) as [resp|e].
  - destruct (Z.leb_spec 400 (status resp)) as [_|Hlt]; [|lia].
    split; [reflexivity|exact Hfiles].
  - split; [reflexivity|exact Hfiles].
Qed.

Lemma failed_request_keeps_cache_witness :
  let w := world_with (File stored_body 0 true true) in
  expired env_404 sample_url 10 w
  /\ fst (fetch env_404 sample_url 10 w) = Raise (ClientResponseError 404)
  /\ files (snd (fetch env_404 sample_url 10 w)) = files w.
Proof.
  intros w.
  assert (He : expired env_404 sample_url 10 w)
    by (vm_compute; reflexivity).
  split; [exact He|].
  apply (failed_request_keeps_cache env_404 sample_url 10 w He).
  simpl. lia.
Defined.

Lemma fetch_finish_frame env url path n w p :
  p <> path ->
  files (snd (fetch_finish env (Requested url path n) w)) !! p
  = files w !! p.
Proof.
  intros Hne. simpl.
  destruct (http_get env n url) as [resp|e]; [|reflexivity].
  destruct (400 <=? status resp); [reflexivity|].
  pose proof (write_file_frame env path (body resp) w p Hne) as Hfr.
  destruct (write_file env path (body resp) w) as [r w']. exact Hfr.
Qed.

(** X8.  A fetch touches no cache file but the one of its own key, and a
    fetch served from the cache touches none at all. *)
Theorem fetch_frame (env : Env) (url : string) (max_age : Z) (w : World) :
  (forall p, p <> re_sub url ->
             files (snd (fetch env url max_age w)) !! p = files w !! p)
  /\ (~ expired env url max_age w ->
      files (snd (fetch env url max_age w)) = files w).
Proof.
  split.
  - intros p Hne. unfold fetch.
    pose proof (fetch_start_files env url max_age w) as Hfiles.
    destruct (expired_dec env url max_age w) as [He|He].
    + destruct (fetch_start_expired env url max_age w He)
        as (w1 & Hs & _ & _).
      rewrite Hs in *. simpl in Hfiles.
      rewrite fetch_finish_frame by exact Hne. rewrite Hfiles. reflexivity.
    + destruct (fetch_start_fresh env url max_age w He) as (f & _ & Hs).
      rewrite Hs. reflexivity.
  - intros He. destruct (fetch_fresh env url max_age w He) as (f & _ & ->).
    reflexivity.
Qed.

Lemma fetch_frame_witness :
  let w := world_with (File stored_body 0 true true) in
  files (snd (fetch (env_of []) "http://b/feed" 3600 w))
    !! re_sub sample_url
  = files w !! re_sub sample_url.
Proof.
  intros w.
  apply (proj1 (fetch_frame (env_of []) "http://b/feed" 3600 w)).
  vm_compute. discriminate.
Defined.

(** X9.  Raising the max age never turns a cache hit into a request: a
    fetch served from the cache under one threshold is served the same
    under any larger one. *)
Theorem max_age_monotone (env : Env) (url : string) (max_age max_age' : Z)
  (w : World) :
  max_age <= max_age' ->
  ~ expired env url max_age w ->
  fetch env url max_age' w = fetch env url max_age w.
Proof.
  intros Hle He.
  assert (He' : ~ expired env url max_age' w).
  { unfold expired in *. destruct (cache_entry url w) as [f|]; [|tauto].
    intros H. apply He. eapply Qle_lt_trans; [|exact H].
    rewrite <- Zle_Qle. exact Hle. }
  destruct (fetch_fresh env url max_age w He) as (f & Hc & ->).
  destruct (fetch_fresh env url max_age' w He') as (f' & Hc' & ->).
  rewrite Hc in Hc'. injection Hc' as <-. reflexivity.
Qed.

Lemma max_age_monotone_witness :
  let w := world_with (File stored_body 0 true true) in
  3600 <= 7200
  /\ fetch (env_of []) sample_url 7200 w
     = fetch (env_of []) sample_url 3600 w.
Proof.
  intros w. split; [lia|].
  apply (max_age_monotone (env_of []) sample_url 3600 7200 w); [lia|].
  vm_compute. intros H. discriminate H.
Defined.

(** X10.  A negative max age sends a request for every entry that is not
    stamped in the future, whatever its age. *)
Theorem negative_max_age (env : Env) (url : string) (max_age : Z)
  (w : World) :
  max_age < 0 ->
  (forall f, cache_entry url w = Some f -> (0 <= age_of env w f)%Q) ->
  requests (snd (fetch env url max_age w)) = url :: requests w.
Proof.
  intros Hneg Hage. apply fetch_expired_calls. unfold expired.
  destruct (cache_entry url w) as [f|] eqn:Hc; [|exact I].
  eapply Qlt_le_trans; [|apply Hage; reflexivity].
  change 0%Q with (inject_Z 0). rewrite <- Zlt_Qlt. exact Hneg.
Qed.

Lemma negative_max_age_witness :
  let w := world_with (File stored_body 100 true true) in
  -1 < 0
  /\ requests (snd (fetch (env_of []) sample_url (-1) w)) = [sample_url].
Proof.
  intros w. split; [lia|].
  apply (negative_max_age (env_of []) sample_url (-1) w); [lia|].
  intros f Hf. vm_compute in Hf. injection Hf as <-.
  vm_compute. discriminate.
Defined.

(** X11.  Two URLs with the same cache key share one entry: while the
    entry is fresh, a fetch of either is answered with the same stored
    bytes, whichever URL they were fetched from. *)
Theorem colliding_urls_share_entry (env : Env) (url url' : string)
  (max_age : Z) (w : World) :
  re_sub url = re_sub url' ->
  ~ expired env url max_age w ->
  fetch env url' max_age w = fetch env url max_age w.
Proof.
  intros Hkey He.
  assert (Hc : cache_entry url' w = cache_entry url w)
    by (unfold cache_entry; rewrite Hkey; reflexivity).
  assert (He' : ~ expired env url' max_age w)
    by (unfold expired in *; rewrite Hc; exact He).
  destruct (fetch_fresh env url max_age w He) as (f & Hf & ->).
  destruct (fetch_fresh env url' max_age w He') as (f' & Hf' & ->).
  rewrite Hc, Hf in Hf'. injection Hf' as <-. reflexivity.
Qed.

Lemma colliding_urls_share_entry_witness :
  let w := world_with (File stored_body 0 true true) in
  re_sub sample_url = re_sub "http:a?feed"
  /\ fetch (env_of []) "http:a?feed" 3600 w = (OK stored_body, tick w).
Proof.
  intros w.
  assert (Hk : re_sub sample_url = re_sub "http:a?feed") by reflexivity.
  split; [exact Hk|].
  rewrite (colliding_urls_share_entry (env_of []) sample_url
             "http:a?feed" 3600 w Hk).
  - vm_compute. reflexivity.
  - vm_compute. intros H. discriminate H.
Defined.

(** X12.  The empty URL has the cache directory itself for a cache path:
    its fetch always sends a request, never returns bytes and never
    changes a cache file. *)
Theorem empty_url_never_fetched (env : Env) (max_age : Z) (w : World) :
  let r := fetch env "" max_age w in
  is_ok (fst r) = false
  /\ requests (snd r) = "" :: requests w
  /\ files (snd r) = files w.
Proof.
  intros r. subst r. unfold fetch, fetch_start, get_file_age.
  change (re_sub "") with "". change (stat w "") with (Some Directory).
  cbn [stale fetch_finish].
  destruct (http_get env (List.length (requests w)) "") as [resp|e];
    [|repeat split].
  destruct (400 <=? status resp); [repeat split|].
  unfold write_file. change (stat _ "") with (Some Directory).
  repeat split.
Qed.

(** ** parse_feed (lines 26-44) *)

(** X13.  The bytes are stored before they are parsed.  When the cache
    path can be written and read back and the parser rejects a payload
    that was fetched successfully, [parse_feed] raises the parser's
    error, and so does every later call made while the age of the
    stored payload is no more than its max age, without a new request. *)
Theorem bad_payload_is_cached (env : Env) (url : string)
  (max_age max_age' : Z) (w : World) (resp : http_response) (e : exn) :
  expired env url max_age w ->
  http_get env (List.length (requests w)) url = OK resp ->
  status resp < 400 ->
  usable env (re_sub url) w ->
  feedparser_parse env (body resp) = Raise e ->
  let w' := snd (parse_feed env url max_age w) in
  fst (parse_feed env url max_age w) = Raise e
  /\ ((forall f, cache_entry url w' = Some f ->
                 (age_of env w' f <= inject_Z max_age')%Q) ->
      parse_feed env url max_age' w' = (Raise e, tick w')).
Proof.
  intros He Hget Hst Hu Hparse.
  pose proof (usable_writable env (re_sub url) w Hu) as Hw.
  destruct (fetch_live_ok env url max_age w resp He Hget Hst Hw)
    as (t & r & wr & Hf & Hr & Hne).
  unfold parse_feed at 1 2. rewrite Hf. cbn [fst snd bind].
  rewrite Hparse. split; [reflexivity|]. intros Hage.
  rewrite (Hr Hu) in *.
  set (w' := {| files := _; ticks := S t; requests := _ |}) in *.
  assert (Hc : cache_entry url w'
               = Some (File (body resp) (stamp env t) true wr))
    by (apply cache_entry_stored, Hne).
  assert (Hfresh : ~ expired env url max_age' w').
  { unfold expired. rewrite Hc.
    intros H. eapply Qlt_not_le; [exact H|]. apply Hage, Hc. }
  unfold parse_feed.
  destruct (fetch_fresh env url max_age' w' Hfresh) as (f & Hc' & ->).
  rewrite Hc in Hc'. injection Hc' as <-. simpl.
  rewrite Hparse. reflexivity.
Qed.

Lemma bad_payload_is_cached_witness :
  expired env_undecodable sample_url 3600 empty_world
  /\ usable env_undecodable (re_sub sample_url) empty_world
  /\ fst (parse_feed env_undecodable sample_url 3600 empty_world)
     = Raise UnicodeDecodeError.
Proof.
  assert (He : expired env_undecodable sample_url 3600 empty_world)
    by exact I.
  assert (Hu : usable env_undecodable (re_sub sample_url) empty_world)
    by (exists true; reflexivity).
  split; [exact He|]. split; [exact Hu|].
  apply (bad_payload_is_cached env_undecodable sample_url 3600 3600
           empty_world (Response 200 sample_body) UnicodeDecodeError He);
    [reflexivity| |exact Hu|reflexivity].
  simpl. lia.
Defined.

(** ** The gather (lines 49-52) *)

Lemma start_all_files env urls max_age w :
  files (snd (start_all env urls max_age w)) = files w.
Proof.
  revert w. induction urls as [|url urls IH]; intros w; simpl;
    [reflexivity|].
  pose proof (fetch_start_files env url max_age w) as Hf.
  destruct (fetch_start env url max_age w) as [p w1].
  specialize (IH w1).
  destruct (start_all env urls max_age w1) as [ps w2].
  simpl in *. congruence.
Qed.

Lemma start_all_length env urls max_age w :
  List.length (fst (start_all env urls max_age w)) = List.length urls.
Proof.
  revert w. induction urls as [|url urls IH]; intros w; simpl;
    [reflexivity|].
  destruct (fetch_start env url max_age w) as [p w1].
  specialize (IH w1).
  destruct (start_all env urls max_age w1) as [ps w2].
  simpl in *. congruence.
Qed.

Lemma start_all_paths env urls max_age w p path :
  In p (fst (start_all env urls max_age w)) ->
  pending_path p = Some path ->
  exists url, In url urls /\ path = re_sub url.
Proof.
  revert w. induction urls as [|url urls IH]; intros w; simpl;
    [contradiction|].
  destruct (fetch_start env url max_age w) as [q w1] eqn:Hq.
  specialize (IH w1).
  destruct (start_all env urls max_age w1) as [ps w2].
  simpl in *. intros [<-|Hin] Hpath.
  - exists url. split; [left; reflexivity|].
    unfold fetch_start in Hq.
    destruct (get_file_age env (re_sub url) w) as [a w0].
    destruct (stale a max_age); injection Hq as <- _; simpl in Hpath;
      congruence.
  - destruct (IH Hin Hpath) as (u & Hu & ->).
    exists u. split; [right; exact Hu|reflexivity].
Qed.

Lemma start_all_misses env urls max_age w :
  (forall url, In url urls -> cache_entry url w = None) ->
  requests (snd (start_all env urls max_age w)) = rev urls ++ requests w.
Proof.
  revert w. induction urls as [|url urls IH]; intros w Hmiss; simpl;
    [reflexivity|].
  assert (He : expired env url max_age w).
  { unfold expired. rewrite Hmiss by (left; reflexivity). exact I. }
  destruct (fetch_start_expired env url max_age w He)
    as (w1 & -> & Hfiles & Hreqs).
  assert (Hmiss1 : forall u, In u urls -> cache_entry u w1 = None).
  { intros u Hu. unfold cache_entry.
    rewrite (stat_same_files w w1) by exact Hfiles.
    apply Hmiss. right. exact Hu. }
  specialize (IH w1 Hmiss1).
  destruct (start_all env urls max_age w1) as [ps w2].
  simpl in *. rewrite IH, Hreqs, <- app_assoc. reflexivity.
Qed.

Lemma drain_all_requests env ps w :
  requests (drain_all env ps w) = requests w.
Proof.
  revert w. induction ps as [|p ps IH]; intros w; simpl; [reflexivity|].
  rewrite IH. destruct p as [url path n|c]; [|reflexivity].
  destruct (drains env n); [|reflexivity].
  apply fetch_finish_requests.
Qed.

Lemma finish_all_requests env ps w :
  requests (snd (finish_all env ps w)) = requests w.
Proof.
  revert w. induction ps as [|p ps IH]; intros w; simpl; [reflexivity|].
  pose proof (fetch_finish_requests env p w) as Hp.
  destruct (fetch_finish env p w) as [c w1].
  destruct (try! content := c in feedparser_parse env content);
    [|simpl; rewrite drain_all_requests; exact Hp].
  specialize (IH w1).
  destruct (finish_all env ps w1) as [r w2]. simpl in *. congruence.
Qed.

Lemma finish_all_length env ps w feeds :
  fst (finish_all env ps w) = OK feeds ->
  List.length feeds = List.length ps.
Proof.
  revert w feeds. induction ps as [|p ps IH]; intros w feeds; simpl.
  - intros H. injection H as <-. reflexivity.
  - destruct (fetch_finish env p w) as [c w1].
    destruct (try! content := c in feedparser_parse env content);
      [|discriminate].
    specialize (IH w1).
    destruct (finish_all env ps w1) as [[fs|e] w2]; simpl;
      [|discriminate].
    intros H. injection H as <-. simpl. f_equal. apply IH. reflexivity.
Qed.

Lemma drain_all_frame env ps w p :
  (forall q, In q ps -> pending_path q <> Some p) ->
  files (drain_all env ps w) !! p = files w !! p.
Proof.
  revert w. induction ps as [|q ps IH]; intros w Hps; simpl;
    [reflexivity|].
  rewrite IH by (intros q' Hq'; apply Hps; right; exact Hq').
  destruct q as [url path n|c]; [|reflexivity].
  destruct (drains env n); [|reflexivity].
  apply fetch_finish_frame. intros Heq.
  apply (Hps (Requested url path n)); [left; reflexivity|].
  simpl. congruence.
Qed.

Lemma finish_all_frame env ps w p :
  (forall q, In q ps -> pending_path q <> Some p) ->
  files (snd (finish_all env ps w)) !! p = files w !! p.
Proof.
  revert w. induction ps as [|q ps IH]; intros w Hps; simpl;
    [reflexivity|].
  assert (Hq : files (snd (fetch_finish env q w)) !! p = files w !! p).
  { destruct q as [url path n|c]; [|reflexivity].
    apply fetch_finish_frame. intros Heq.
    apply (Hps (Requested url path n)); [left; reflexivity|].
    simpl. congruence. }
  destruct (fetch_finish env q w) as [c w1].
  destruct (try! content := c in feedparser_parse env content).
  2:{ simpl. rewrite drain_all_frame; [exact Hq|].
      intros q' Hq'. apply Hps. right. exact Hq'. }
  assert (IH' := IH w1 (fun q' Hq' => Hps q' (or_intror Hq'))).
  destruct (finish_all env ps w1) as [r w2]. simpl in *. congruence.
Qed.

(** X15.  Every URL of the list is handled on its own, a URL given twice
    is handled twice: when none of them has a cache entry the requests go
    out for all of them in list order, repeats included, and a gather
    that succeeds returns one parsed feed for each. *)
Theorem gather_fetches_each (env : Env) (urls : list string) (max_age : Z)
  (w : World) :
  (forall url, In url urls -> cache_entry url w = None) ->
  requests (snd (gather env urls max_age w)) = rev urls ++ requests w
  /\ forall feeds,
       fst (gather env urls max_age w) = OK feeds ->
       List.length feeds = List.length urls.
Proof.
  intros Hmiss. unfold gather.
  pose proof (start_all_misses env urls max_age w Hmiss) as Hreq.
  pose proof (start_all_length env urls max_age w) as Hlen.
  destruct (start_all env urls max_age w) as [ps w1]. simpl in *.
  split.
  - rewrite finish_all_requests. exact Hreq.
  - intros feeds Hf. rewrite <- Hlen.
    eapply finish_all_length. exact Hf.
Qed.

Lemma gather_fetches_each_witness :
  requests (snd (gather (env_of []) [sample_url; sample_url] 3600
                   empty_world))
  = [sample_url; sample_url].
Proof.
  apply (gather_fetches_each (env_of []) [sample_url; sample_url] 3600
           empty_world).
  intros url [<-|[<-|[]]]; reflexivity.
Defined.

(** ** The aggregation as a whole (lines 47-70) *)

Lemma generate_world env urls max_age w :
  snd (generate_hybrid_feed env urls max_age w)
  = snd (gather env urls max_age w).
Proof.
  unfold generate_hybrid_feed. rewrite digest_ok.
  destruct (gather env urls max_age w). reflexivity.
Qed.

(** X16.  An aggregation leaves every cache file alone but those of the
    keys of its own URLs. *)
Theorem aggregation_frame (env : Env) (urls : list string) (max_age : Z)
  (w : World) (p : string) :
  (forall url, In url urls -> re_sub url <> p) ->
  files (snd (generate_hybrid_feed env urls max_age w)) !! p
  = files w !! p.
Proof.
  intros Hp. rewrite generate_world. unfold gather.
  pose proof (start_all_files env urls max_age w) as Hfiles.
  pose proof (start_all_paths env urls max_age w) as Hpaths.
  destruct (start_all env urls max_age w) as [ps w1]. simpl in *.
  rewrite finish_all_frame, Hfiles; [reflexivity|].
  intros q Hq Hpath.
  destruct (Hpaths q p Hq Hpath) as (url & Hu & Heq).
  apply (Hp url Hu). congruence.
Qed.

Lemma aggregation_frame_witness :
  let w := world_with (File stored_body 0 true true) in
  files (snd (generate_hybrid_feed (env_of []) ["http://b/feed"] 3600 w))
    !! re_sub sample_url
  = Some (Regular (File stored_body 0 true true)).
Proof.
  intros w.
  rewrite (aggregation_frame (env_of []) ["http://b/feed"] 3600 w
             (re_sub sample_url)).
  - vm_compute. reflexivity.
  - intros url [<-|[]]. vm_compute. discriminate.
Defined.

(** ** The hand-over to the feed generator (lines 59-70) *)


Lemma add_item_inv env fg e fg' :
  add_item env fg e = OK fg' ->
  complete e
  /\ exists it,
       handed e it
       /\ fg' = {| fg_title := fg_title fg; fg_id := fg_id fg;
                   fg_items := it :: fg_items fg |}.
Proof.
  unfold add_item, setter, getitem, complete, handed.
  destruct (title e) as [t|]; [|discriminate]. cbn [bind].
  destruct (feedgen_set env "title" (Some t)); [discriminate|]. cbn [bind].
  destruct (guid e) as [g|]; [|discriminate]. cbn [bind].
  destruct (feedgen_set env "guid" (Some g)); [discriminate|]. cbn [bind].
  destruct (link e) as [l|]; [|discriminate]. cbn [bind].
  destruct (feedgen_set env "link" (Some l)); [discriminate|]. cbn [bind].
  destruct (feedgen_set env "published" _); [discriminate|]. cbn [bind].
  destruct (feedgen_set env "updated" _); [discriminate|]. cbn [bind].
  intros H. injection H as <-.
  split; [repeat split; discriminate|].
  eexists. split; [|reflexivity]. simpl. repeat split.
Qed.




(** X14.  When the item loop succeeds, every entry had a title, a guid
    and a link, the title and the id of the feed are as before, and the
    generator holds one new entry for each, built from its title, guid
    and link, each put in front of the ones before: the entry handed
    over last comes first. *)
Theorem add_items_spec (env : Env) (fg fg' : FeedGenerator)
  (es : list Entry) :
  add_items env fg es = OK fg' ->
  Forall complete es
  /\ fg_title fg' = fg_title fg /\ fg_id fg' = fg_id fg
  /\ exists items,
       fg_items fg' = rev items ++ fg_items fg
       /\ Forall2 handed es items.
Proof.
  revert fg. induction es as [|e es IH]; intros fg; simpl.
  - intros H. injection H as <-. split; [constructor|].
    repeat split. exists []. split; [reflexivity|constructor].
  - destruct (add_item env fg e) as [fg1|x] eqn:Ha; [|discriminate].
    cbn [bind]. intros Hrest.
    destruct (add_item_inv env fg e fg1 Ha) as (Hc & it & Hit & ->).
    destruct (IH _ Hrest) as (Hall & Ht & Hi & items & Hitems & Hh).
    simpl in *. split; [constructor; assumption|].
    repeat split; try assumption.
    exists (it :: items). split; [|constructor; assumption].
    rewrite Hitems. simpl. rewrite <- app_assoc. reflexivity.
Qed.

Lemma add_items_spec_witness :
  add_items (env_of [])
    {| fg_title := None; fg_id := None; fg_items := [] |}
    [entry_b1; entry_a1]
  = OK {| fg_title := None; fg_id := None;
          fg_items :=
            [ {| fe_title := "a"; fe_guid := "a1"; fe_link := "http://a/1";
                 fe_published := None;
                 fe_updated := Some "2024-01-02T00:00:00Z" |};
              {| fe_title := "b"; fe_guid := "b1"; fe_link := "http://b/1";
                 fe_published := Some "2024-01-03T00:00:00Z";
                 fe_updated := None |} ] |}
  /\ Forall complete [entry_b1; entry_a1].
Proof.
  assert (H : add_items (env_of [])
                {| fg_title := None; fg_id := None; fg_items := [] |}
                [entry_b1; entry_a1]
              = OK {| fg_title := None; fg_id := None;
                      fg_items :=
                        [ {| fe_title := "a"; fe_guid := "a1";
                             fe_link := "http://a/1";
                             fe_published := None;
                             fe_updated := Some "2024-01-02T00:00:00Z" |};
                          {| fe_title := "b"; fe_guid := "b1";
                             fe_link := "http://b/1";
                             fe_published := Some "2024-01-03T00:00:00Z";
                             fe_updated := None |} ] |})
    by reflexivity.
  split; [exact H|].
  exact (proj1 (add_items_spec _ _ _ _ H)).
Defined.








(** ** The order of the merge (lines 54-58) *)

Section SortedUnique.
Context {A K : Type}.
Variable key : A -> K.
Variable ltb : K -> K -> bool.
Hypothesis ltb_total :
  forall a b, ltb a b = false -> ltb b a = false -> a = b.

(** Two ascending lists with the same elements are the same list, when
    no two elements of them share a key. *)
Lemma sorted_perm_eq_on l1 l2 :
  (forall a b, In a l1 -> In b l1 -> key a = key b -> a = b) ->
  StronglySorted (not_after key ltb) l1 ->
  StronglySorted (not_after key ltb) l2 ->
  Permutation l1 l2 -> l1 = l2.
Proof.
  revert l2. induction l1 as [|a l1 IH]; intros l2 Hinj Hs1 Hs2 Hp.
  - apply Permutation_nil in Hp. congruence.
  - destruct l2 as [|b l2].
    { symmetry in Hp. apply Permutation_nil in Hp. discriminate. }
    inversion Hs1 as [|? ? Hs1' Hall1]; subst.
    inversion Hs2 as [|? ? Hs2' Hall2]; subst.
    assert (Hb : In b (a :: l1))
      by (eapply Permutation_in; [symmetry; exact Hp|left; reflexivity]).
    assert (Hab : a = b).
    { assert (Ha : In a (b :: l2))
        by (eapply Permutation_in; [exact Hp|left; reflexivity]).
      destruct Ha as [Ha|Ha]; [congruence|].
      destruct Hb as [Hb'|Hb']; [congruence|].
      rewrite List.Forall_forall in Hall1, Hall2.
      apply Hinj; [left; reflexivity|right; exact Hb'|].
      apply ltb_total; [apply Hall2, Ha|apply Hall1, Hb']. }
    subst b. f_equal. apply IH; try assumption.
    + intros x y Hx Hy. apply Hinj; right; assumption.
    + eapply Permutation_cons_inv. exact Hp.
Qed.
End SortedUnique.

Lemma NoDup_map_inj {A B} (f : A -> B) l a b :
  NoDup (map f l) -> In a l -> In b l -> f a = f b -> a = b.
Proof.
  induction l as [|x l IH]; simpl; [contradiction|].
  intros Hnd. inversion Hnd as [|? ? Hx Hnd']; subst.
  intros [->|Ha] [->|Hb] Hab; auto.
  - exfalso. apply Hx. rewrite Hab. apply list_elem_of_In, in_map, Hb.
  - exfalso. apply Hx. rewrite <- Hab. apply list_elem_of_In, in_map, Ha.
Qed.

(** X19.  The order of the feeds, and so of the URLs, decides nothing but
    ties: two collections of feeds with the same entries, every entry
    with a timestamp and no two with the same one, are merged into the
    same sequence. *)
Theorem merge_order_only_breaks_ties (feeds feeds' : list FeedParserDict) :
  Permutation (concat (map entries feeds)) (concat (map entries feeds')) ->
  Forall (fun e => sort_key e <> None) (concat (map entries feeds)) ->
  NoDup (map sort_key (concat (map entries feeds))) ->
  sorted_entries feeds' = sorted_entries feeds.
Proof.
  set (flat := concat (map entries feeds)).
  set (flat' := concat (map entries feeds')).
  intros Hp Hkeys Hnd.
  assert (Hkeys' : Forall (fun e => sort_key e <> None) flat')
    by (eapply Permutation_Forall; eassumption).
  rewrite (sorted_entries_ok feeds Hkeys),
    (sorted_entries_ok feeds' Hkeys').
  fold flat flat'. f_equal. unfold sort_by. f_equal. symmetry.
  assert (Hsrt : forall l, Permutation (sort_by_from sort_key okey_ltb [] l) l)
    by (intros l; apply (sort_by_from_perm sort_key okey_ltb l [])).
  apply (sorted_perm_eq_on sort_key okey_ltb okey_ltb_total).
  - intros a b Ha Hb. apply (NoDup_map_inj sort_key flat); [exact Hnd| |].
    + apply in_rev. eapply Permutation_in; [apply Hsrt|exact Ha].
    + apply in_rev. eapply Permutation_in; [apply Hsrt|exact Hb].
  - apply (sort_by_from_sorted sort_key okey_ltb okey_ltb_irrefl
             okey_ltb_trans okey_ltb_total). constructor.
  - apply (sort_by_from_sorted sort_key okey_ltb okey_ltb_irrefl
             okey_ltb_trans okey_ltb_total). constructor.
  - rewrite !Hsrt, <- !Permutation_rev. exact Hp.
Qed.

Lemma merge_order_only_breaks_ties_witness :
  sorted_entries [ {| entries := [entry_b1] |}; {| entries := [entry_a1] |} ]
  = sorted_entries
      [ {| entries := [entry_a1] |}; {| entries := [entry_b1] |} ].
Proof.
  apply (merge_order_only_breaks_ties
           [ {| entries := [entry_a1] |}; {| entries := [entry_b1] |} ]
           [ {| entries := [entry_b1] |}; {| entries := [entry_a1] |} ]).
  - apply perm_swap.
  - repeat constructor; discriminate.
  - apply (bool_decide_unpack _). vm_compute. exact I.
Defined.

(** ** The cache after an aggregation *)

Lemma write_file_keeps env path c w q :
  has_entry q w -> has_entry q (snd (write_file env path c w)).
Proof.
  intros [f Hf]. unfold write_file.
  destruct (stat w path) as [[g|]|] eqn:Hp; simpl;
    try (exists f; exact Hf).
  - destruct (f_writable g); simpl; [|exists f; exact Hf].
    unfold has_entry, stat in *. simpl.
    destruct (String.eqb q ""); [discriminate|].
    destruct (decide (path = q)) as [->|Hne].
    + rewrite lookup_insert_eq. eexists; reflexivity.
    + rewrite lookup_insert_ne by exact Hne. exists f. exact Hf.
  - destruct (fs_create env path) as [[r wr]|]; simpl;
      [|exists f; exact Hf].
    unfold has_entry, stat in *. simpl.
    destruct (String.eqb q ""); [discriminate|].
    destruct (decide (path = q)) as [->|Hne].
    + rewrite lookup_insert_eq. eexists; reflexivity.
    + rewrite lookup_insert_ne by exact Hne. exists f. exact Hf.
Qed.

Lemma write_file_creates env path c w :
  fst (write_file env path c w) = OK tt ->
  has_entry path (snd (write_file env path c w)).
Proof.
  unfold write_file, has_entry, stat.
  destruct path as [|a s]; [simpl; discriminate|].
  change (String.eqb (String a s) "") with false. cbv iota.
  destruct (files w !! String a s) as [[g|]|]; cbn [fst snd files];
    try discriminate.
  - destruct (f_writable g); cbn [fst snd files]; [|discriminate].
    intros _. rewrite lookup_insert_eq. eexists; reflexivity.
  - destruct (fs_create env (String a s)) as [[r wr]|];
      cbn [fst snd files]; [|discriminate].
    intros _. rewrite lookup_insert_eq. eexists; reflexivity.
Qed.

Lemma fetch_finish_keeps env p w q :
  has_entry q w -> has_entry q (snd (fetch_finish env p w)).
Proof.
  intros Hq. destruct p as [url path n|c]; simpl; [|exact Hq].
  destruct (http_get env n url) as [resp|e]; [|exact Hq].
  destruct (400 <=? status resp); [exact Hq|].
  pose proof (write_file_keeps env path (body resp) w q Hq) as Hk.
  destruct (write_file env path (body resp) w). exact Hk.
Qed.

Lemma fetch_finish_covers env p w q c :
  covers p q w -> fst (fetch_finish env p w) = OK c ->
  has_entry q (snd (fetch_finish env p w)).
Proof.
  destruct p as [url path n|r]; simpl; [|intros Hq _; exact Hq].
  intros ->. destruct (http_get env n url) as [resp|e]; [|discriminate].
  destruct (400 <=? status resp); [discriminate|].
  pose proof (write_file_creates env q (body resp) w) as Hc.
  destruct (write_file env q (body resp) w) as [[[]|e] w'];
    simpl in *; [auto|discriminate].
Qed.

Lemma drain_all_keeps env ps w q :
  has_entry q w -> has_entry q (drain_all env ps w).
Proof.
  revert w. induction ps as [|p ps IH]; intros w Hq; simpl; [exact Hq|].
  apply IH. destruct p as [url path n|c]; [|exact Hq].
  destruct (drains env n); [|exact Hq].
  apply fetch_finish_keeps, Hq.
Qed.

Lemma finish_all_keeps env ps w q :
  has_entry q w -> has_entry q (snd (finish_all env ps w)).
Proof.
  revert w. induction ps as [|p ps IH]; intros w Hq; simpl; [exact Hq|].
  pose proof (fetch_finish_keeps env p w q Hq) as Hk.
  destruct (fetch_finish env p w) as [c w1].
  destruct (try! content := c in feedparser_parse env content);
    [|apply drain_all_keeps; exact Hk].
  specialize (IH w1 Hk).
  destruct (finish_all env ps w1) as [r w2]. exact IH.
Qed.

Lemma covers_keeps env p0 p w q :
  covers p q w -> covers p q (snd (fetch_finish env p0 w)).
Proof.
  destruct p as [url path n|r]; simpl; [auto|].
  apply fetch_finish_keeps.
Qed.

Lemma finish_all_covers env ps w feeds p q :
  fst (finish_all env ps w) = OK feeds ->
  In p ps -> covers p q w ->
  has_entry q (snd (finish_all env ps w)).
Proof.
  revert w feeds. induction ps as [|p0 ps IH]; intros w feeds;
    [contradiction|].
  simpl. intros Hok Hin Hcov.
  pose proof (fetch_finish_covers env p0 w q) as Hfc.
  pose proof (covers_keeps env p0 p w q Hcov) as Hck.
  destruct (fetch_finish env p0 w) as [c w1].
  destruct c as [content|e]; [|discriminate]. cbn [bind] in *.
  destruct (feedparser_parse env content) as [feed|e]; [|discriminate].
  specialize (IH w1).
  destruct (finish_all env ps w1) as [[fs|e] w2] eqn:Hfin; simpl in *;
    [|discriminate].
  destruct Hin as [->|Hin].
  - pose proof (finish_all_keeps env ps w1 q
                  (Hfc content Hcov eq_refl)) as Hk.
    rewrite Hfin in Hk. exact Hk.
  - apply (IH fs eq_refl Hin Hck).
Qed.

Lemma fetch_start_covers env url max_age w :
  covers (fst (fetch_start env url max_age w)) (re_sub url) w.
Proof.
  unfold fetch_start, get_file_age.
  destruct (stat w (re_sub url)) as [[f|]|] eqn:Hst; simpl;
    try reflexivity.
  destruct (negb _); simpl; [reflexivity|].
  exists f. exact Hst.
Qed.

Lemma start_all_covers env urls max_age w url :
  In url urls ->
  exists p, In p (fst (start_all env urls max_age w))
            /\ covers p (re_sub url) w.
Proof.
  revert w. induction urls as [|u urls IH]; intros w; [contradiction|].
  simpl. intros Hin.
  pose proof (fetch_start_covers env u max_age w) as Hc.
  pose proof (fetch_start_files env u max_age w) as Hf.
  destruct (fetch_start env u max_age w) as [p w1].
  specialize (IH w1).
  destruct (start_all env urls max_age w1) as [ps w2]. simpl in *.
  destruct Hin as [->|Hin].
  - exists p. split; [left; reflexivity|exact Hc].
  - destruct (IH Hin) as (p' & Hp' & Hc').
    exists p'. split; [right; exact Hp'|].
    destruct p' as [? ? ?|r]; simpl in *; [exact Hc'|].
    destruct Hc' as [f Hst]. exists f.
    rewrite <- (stat_same_files w w1) by exact Hf. exact Hst.
Qed.

(** X20.  When the gather succeeds, every URL of the list has a cache
    entry afterwards, the ones that were served from the cache as much
    as the ones that were fetched. *)
Theorem gather_fills_cache (env : Env) (urls : list string) (max_age : Z)
  (w : World) (feeds : list FeedParserDict) (url : string) :
  fst (gather env urls max_age w) = OK feeds ->
  In url urls ->
  exists f, cache_entry url (snd (gather env urls max_age w)) = Some f.
Proof.
  unfold gather. intros Hok Hin.
  destruct (start_all_covers env urls max_age w url Hin)
    as (p & Hp & Hcov).
  pose proof (start_all_files env urls max_age w) as Hfiles.
  destruct (start_all env urls max_age w) as [ps w1]. simpl in *.
  assert (Hcov1 : covers p (re_sub url) w1).
  { destruct p as [? ? ?|r]; simpl in *; [exact Hcov|].
    destruct Hcov as [f Hst]. exists f.
    rewrite (stat_same_files w w1) by exact Hfiles. exact Hst. }
  destruct (finish_all_covers env ps w1 feeds p (re_sub url) Hok Hp Hcov1)
    as [f Hf].
  exists f. unfold cache_entry. rewrite Hf. reflexivity.
Qed.

Lemma gather_fills_cache_witness :
  exists f,
    cache_entry sample_url
      (snd (gather (env_of []) ["http://b/feed"; sample_url] 3600
              empty_world)) = Some f.
Proof.
  apply (gather_fills_cache (env_of []) ["http://b/feed"; sample_url]
           3600 empty_world [ {| entries := [] |}; {| entries := [] |} ]).
  - vm_compute. reflexivity.
  - right. left. reflexivity.
Defined.
